(** * PortraitGeneratorApp (src/index.tsx): usage tracking and the retry loop

    A shallow embedding of the class [PortraitGeneratorApp]: its fields are a
    record, every method is a function that takes the record and returns the
    updated one, and every call that leaves the object (alert, localStorage,
    the two remote models, the status switch of [_updateUIState]) is appended
    to a trace kept in the record, so that statements about the order of side
    effects can be made.

    Numbers.  Timestamps are produced by [Date.now()], integer milliseconds;
    on integers of that size double arithmetic is exact, and numbers are
    modelled by [Z].  [NaN] is kept, because the window test and the sort
    comparator meet it as soon as the stored array holds something that is
    not a number.  What [Z] does not hold is outside the model: fractions,
    and JSON numbers beyond the range of doubles (the text 1e400 is read as
    Infinity, passes the window test and is written back as null).  A
    statement about a list of integers says nothing about such members, and
    sums and differences are those of the source only while they stay
    within the safe integers ([MAX_SAFE_INTEGER]).

    Rendering (class lists, text content, the two display timers) has no
    influence on the fields modelled here and is left out of the record;
    each place where the source calls such a method is marked in a comment.
    The two timers and [downloadImage] are modelled on their own, after the
    session.

    Asynchrony.  [generateSingleView] is an async function: at each [await]
    other listeners of the page may run.  There are two readings of it.
    In the first a session is one function run to its end, and the
    listeners that run during each [await] are part of its input (see
    [Attempt]); the countdown's deferred [loadRateLimitData] is one of
    them.  A click on generate or regenerate is not: in this reading one
    session is in flight at a time.  The source does not enforce that: the
    generate button stays enabled during a regenerate session, and
    [updateUsageDisplay] enables it again in the middle of a session (after
    a reload or an upload).  The second reading ([Page], [page_step])
    therefore delivers the events of the page one by one, suspends a
    session at each [await] and lets clicks arrive while sessions are in
    flight; [one_session_agrees] shows that the first reading is the second
    one with a single session driven to its end.  What depends on sessions
    not overlapping is stated on the second reading, with that condition as
    a hypothesis.

    The store is taken to be reliable: [getItem] and [setItem] do not
    throw. *)

From Stdlib Require Import ZArith List String Bool Lia Sorted Permutation.
From Stdlib Require Import DecimalString.
Import ListNotations.
Local Open Scope Z_scope.

(** ** Exceptions inside a [try] block *)

Module Completion.
(** [None] is an abrupt completion (a thrown exception). *)
Definition t (A : Type) : Type := option A.
Definition ret {A} (a : A) : t A := Some a.
Definition throw {A} : t A := None.
Definition bind {A B} (c : t A) (k : A -> t B) : t B :=
  match c with
  | Some a => k a
  | None => None
  end.
(** [try { c } catch (e) { handler }] *)
Definition try_catch {A} (c : t A) (handler : A) : A :=
  match c with
  | Some a => a
  | None => handler
  end.
End Completion.

Notation "x <- c ;; k" := (Completion.bind c (fun x => k))
  (at level 61, c at next level, right associativity).

(** ** JavaScript values met in the stored array *)

Inductive JSNumber : Type :=
| NaN
| Num (n : Z).

(** [x - y] on numbers. *)
Definition minus (x y : JSNumber) : JSNumber :=
  match x, y with
  | Num a, Num b => Num (a - b)
  | _, _ => NaN
  end.

(** [x < y] against a proper number; a comparison with [NaN] is false. *)
Definition lessThan (x : JSNumber) (y : Z) : bool :=
  match x with
  | Num a => a <? y
  | NaN => false
  end.

(** A member of the array that [JSON.parse] returns.  The program only ever
    subtracts members ([a - b] in the comparator, [now - ts] in the window
    test), so members that are not numbers are grouped by what ECMAScript's
    ToNumber makes of them.  Members whose conversion is not an integer
    (fractions, the string "Infinity") are not represented. *)
Inductive JSValue : Type :=
| JNumber (n : Z)        (* a number *)
| JNull                  (* null: ToNumber gives +0 *)
| JBoolean (b : bool)    (* true / false: ToNumber gives 1 / +0 *)
| JDigits (n : Z)        (* the string that spells the integer n in decimal
                            digits, such as "1762000000000": ToNumber gives n *)
| JNotANumber            (* a string that spells no number, or an ordinary
                            object: ToNumber gives NaN *)
| JUncoercible.          (* an object such as {"valueOf":1,"toString":1} whose
                            inherited conversions are shadowed by non-callable
                            members: ToPrimitive throws a TypeError *)

Definition ToNumber (v : JSValue) : Completion.t JSNumber :=
  match v with
  | JNumber n => Completion.ret (Num n)
  | JNull => Completion.ret (Num 0)
  | JBoolean b => Completion.ret (Num (if b then 1 else 0))
  | JDigits n => Completion.ret (Num n)
  | JNotANumber => Completion.ret NaN
  | JUncoercible => Completion.throw
  end.

(** [a - b] on arbitrary operands: both are coerced, left one first. *)
Definition subtract (a b : JSValue) : Completion.t JSNumber :=
  x <- ToNumber a ;;
  y <- ToNumber b ;;
  Completion.ret (minus x y).

(** *** [Array.prototype.sort] with the comparator [(a, b) => a - b]

    A stable insertion sort.  ECMAScript reads a [NaN] from the comparator as
    [+0].  On an array of numbers the comparator is consistent and every
    conforming engine returns the list computed here; when members coerce to
    [NaN] the comparator is not consistent and ECMAScript leaves the order to
    the engine, so nothing is proved about the order of such arrays. *)

Definition compareFn (a b : JSValue) : Completion.t JSNumber := subtract a b.

Definition positive (v : JSNumber) : bool :=
  match v with
  | Num n => 0 <? n
  | NaN => false
  end.

Fixpoint insert (x : JSValue) (sorted : list JSValue)
  : Completion.t (list JSValue) :=
  match sorted with
  | [] => Completion.ret [x]
  | y :: rest =>
      v <- compareFn x y ;;
      if positive v
      then (rest' <- insert x rest ;; Completion.ret (y :: rest'))
      else Completion.ret (x :: y :: rest)
  end.

Fixpoint Array_sort (l : list JSValue) : Completion.t (list JSValue) :=
  match l with
  | [] => Completion.ret []
  | x :: l' => s <- Array_sort l' ;; insert x s
  end.

(** [Array.prototype.filter] with a callback that may throw. *)
Fixpoint Array_filter (p : JSValue -> Completion.t bool) (l : list JSValue)
  : Completion.t (list JSValue) :=
  match l with
  | [] => Completion.ret []
  | x :: l' =>
      keep <- p x ;;
      rest <- Array_filter p l' ;;
      Completion.ret (if keep then x :: rest else rest)
  end.

(** ** The item under [TIMESTAMP_STORAGE_KEY]

    The store holds a string; the program looks at it only through its
    truthiness and through [JSON.parse], so the string is modelled by what
    those two make of it. *)

Inductive Parsed : Type :=
| NotArray                           (* a JSON document that is no array *)
| ArrayOf (members : list JSValue).  (* a JSON array *)

Inductive StoredData : Type :=
| Null                               (* getItem found nothing: null *)
| Empty                              (* the item is the empty string *)
| Text (parsed : option Parsed).     (* a non-empty string; [None] when
                                        JSON.parse throws a SyntaxError *)

Definition truthy_stored (storedData : StoredData) : bool :=
  match storedData with
  | Null | Empty => false
  | Text _ => true
  end.

Definition JSON_parse (storedData : StoredData) : Completion.t Parsed :=
  match storedData with
  | Text (Some v) => Completion.ret v
  | _ => Completion.throw
  end.

(** [JSON.stringify] of an array is a non-empty string that parses back to
    the same members.  This is so for every member the model holds
    (integers, null, booleans, strings); it would not be for Infinity, which
    is written as null and which the model does not hold. *)
Definition JSON_stringify (log : list JSValue) : StoredData :=
  Text (Some (ArrayOf log)).

(** ** Fields and side effects *)

Inductive UIState : Type := Idle | Loading | Success | Failure | Terminating.

Inductive GenerationType : Type := generate | regenerate.

Inductive AlertMessage : Type :=
| LimitReached     (* the "5 generations within 10 minutes" alert *)
| UploadFirst      (* the "upload a photo first" alert *)
| InvalidFile.     (* the "upload a valid image file" alert *)

Inductive Model : Type :=
| gemini_flash_image   (* 'gemini-2.5-flash-image-preview', the generator *)
| gemini_flash.        (* 'gemini-2.5-flash', asked by verifyImageMatch *)

Inductive Effect : Type :=
| alert (msg : AlertMessage)
| setItem (value : list JSValue)
| generateContent (model : Model)
| updateUIState (state : UIState) (isRegen : bool).

Record App : Type := mkApp {
  uploadedBase64Image : option string;
  failureCount : Z;
  successfulImageData : option string;
  isGenerationTerminated : bool;
  isCartoonMode : bool;
  generationTimestamps : list JSValue;
  localStorage : StoredData;
  uiState : UIState;
  effects : list Effect
}.

Definition RATE_LIMIT_WINDOW_MS : Z := 10 * 60 * 1000.
Definition RATE_LIMIT_MAX_GENERATIONS : Z := 5.
Definition MAX_ATTEMPTS : nat := 5.

Definition set_uploadedBase64Image (v : option string) (a : App) : App :=
  mkApp v (failureCount a) (successfulImageData a) (isGenerationTerminated a)
        (isCartoonMode a) (generationTimestamps a) (localStorage a)
        (uiState a) (effects a).

Definition set_failureCount (v : Z) (a : App) : App :=
  mkApp (uploadedBase64Image a) v (successfulImageData a)
        (isGenerationTerminated a) (isCartoonMode a) (generationTimestamps a)
        (localStorage a) (uiState a) (effects a).

Definition set_successfulImageData (v : option string) (a : App) : App :=
  mkApp (uploadedBase64Image a) (failureCount a) v (isGenerationTerminated a)
        (isCartoonMode a) (generationTimestamps a) (localStorage a)
        (uiState a) (effects a).

Definition set_isGenerationTerminated (v : bool) (a : App) : App :=
  mkApp (uploadedBase64Image a) (failureCount a) (successfulImageData a) v
        (isCartoonMode a) (generationTimestamps a) (localStorage a)
        (uiState a) (effects a).

Definition set_isCartoonMode (v : bool) (a : App) : App :=
  mkApp (uploadedBase64Image a) (failureCount a) (successfulImageData a)
        (isGenerationTerminated a) v (generationTimestamps a)
        (localStorage a) (uiState a) (effects a).

Definition set_generationTimestamps (v : list JSValue) (a : App) : App :=
  mkApp (uploadedBase64Image a) (failureCount a) (successfulImageData a)
        (isGenerationTerminated a) (isCartoonMode a) v (localStorage a)
        (uiState a) (effects a).

Definition set_localStorage (v : StoredData) (a : App) : App :=
  mkApp (uploadedBase64Image a) (failureCount a) (successfulImageData a)
        (isGenerationTerminated a) (isCartoonMode a) (generationTimestamps a)
        v (uiState a) (effects a).

Definition set_uiState (v : UIState) (a : App) : App :=
  mkApp (uploadedBase64Image a) (failureCount a) (successfulImageData a)
        (isGenerationTerminated a) (isCartoonMode a) (generationTimestamps a)
        (localStorage a) v (effects a).

(** Record one call that leaves the object; the trace is oldest first. *)
Definition emit (e : Effect) (a : App) : App :=
  mkApp (uploadedBase64Image a) (failureCount a) (successfulImageData a)
        (isGenerationTerminated a) (isCartoonMode a) (generationTimestamps a)
        (localStorage a) (uiState a) (effects a ++ [e]).

(** A string or null used as a condition. *)
Definition truthy (s : option string) : bool :=
  match s with
  | Some s' => negb (String.eqb s' EmptyString)
  | None => false
  end.

(** ** Usage tracking *)

(** localStorage.setItem(KEY, JSON.stringify(this.generationTimestamps)) *)
Definition saveTimestamps (a : App) : App :=
  emit (setItem (generationTimestamps a))
       (set_localStorage (JSON_stringify (generationTimestamps a)) a).

(** The callback of the filter: [(now - ts) < RATE_LIMIT_WINDOW_MS]. *)
Definition in_window (now : Z) (ts : JSValue) : Completion.t bool :=
  t <- ToNumber ts ;;
  Completion.ret (lessThan (minus (Num now) t) RATE_LIMIT_WINDOW_MS).

(** The body of the [try] block. *)
Definition parse_sort_filter (now : Z) (storedData : StoredData)
  : Completion.t (list JSValue) :=
  timestamps <- JSON_parse storedData ;;
  match timestamps with
  | ArrayOf members =>
      sorted <- Array_sort members ;;
      Array_filter (in_window now) sorted
  | NotArray => Completion.ret []
  end.

Definition loadRateLimitData (now : Z) (a : App) : App :=
  let storedData := localStorage a in
  let validTimestamps :=
    if truthy_stored storedData
    then Completion.try_catch (parse_sort_filter now storedData) []
    else [] in
  let a := set_generationTimestamps validTimestamps a in
  let a := saveTimestamps a in
  (* updateUsageDisplay(); startRateLimitTimer(): display only; the reload
     the timer asks for later is the callback [rateLimitTimer_reload]. *)
  a.

(** ** The status switch and the two resets *)

(** [_updateUIState(state, isRegen = false)]: which panel is shown.  The
    state last applied is the status a renderer observes. *)
Definition _updateUIState (state : UIState) (isRegen : bool) (a : App) : App :=
  emit (updateUIState state isRegen) (set_uiState state a).

Definition resetUI (a : App) : App :=
  let a := set_uploadedBase64Image None a in
  let a := set_successfulImageData None a in
  let a := set_isCartoonMode false a in
  let a := _updateUIState Idle false a in
  let a := set_failureCount 0 a in
  (* updateFailureCountDisplay(); generateButton.disabled = true *)
  a.

(** *** File handling *)

Record File : Type := mkFile {
  type : string;      (* file.type *)
  result : string     (* what the FileReader hands to onload *)
}.

(** [s.split(sep)] for a one-character separator. *)
Fixpoint split (sep : Ascii.ascii) (s : string) : list string :=
  match s with
  | EmptyString => [EmptyString]
  | String c s' =>
      if Ascii.eqb c sep
      then EmptyString :: split sep s'
      else match split sep s' with
           | piece :: pieces => String c piece :: pieces
           | [] => [String c EmptyString]
           end
  end.

(** [s.includes(sep)] for a one-character needle. *)
Fixpoint includes (sep : Ascii.ascii) (s : string) : bool :=
  match s with
  | EmptyString => false
  | String c s' => Ascii.eqb c sep || includes sep s'
  end.

Definition comma : Ascii.ascii := Ascii.Ascii false false true true false true false false.

(** [handleFile(file)], with the [onload] of its FileReader run at once. *)
Definition handleFile (file : option File) (a : App) : App :=
  match file with
  | Some f =>
      if String.prefix "image/" (type f)
      then
        if negb (String.eqb (result f) EmptyString)
        then
          let a :=
            if includes comma (result f)
            then set_uploadedBase64Image (nth_error (split comma (result f)) 1) a
            else a in
          let a := set_failureCount 0 a in
          (* updateFailureCountDisplay(); updateUsageDisplay() *)
          a
        else a
      else emit (alert InvalidFile) a
  | None => a
  end.

(** ** Listeners that can run while a generation is awaited

    The two buttons that start a session are not among them: a click that
    arrives while a session is in flight is an event of [page_step],
    below. *)

Inductive Callback : Type :=
| terminate_click                          (* this.isGenerationTerminated = true *)
| isCartoonCheckbox_change (checked : bool)
| clearButton_click                        (* resetUI() *)
| imageInput_change (file : option File)   (* handleFile(file), also on drop *)
| rateLimitTimer_reload (now : Z).         (* the countdown asks for loadRateLimitData() *)

Definition run_callback (c : Callback) (a : App) : App :=
  match c with
  | terminate_click => set_isGenerationTerminated true a
  | isCartoonCheckbox_change checked => set_isCartoonMode checked a
  | clearButton_click => resetUI a
  | imageInput_change file => handleFile file a
  | rateLimitTimer_reload now => loadRateLimitData now a
  end.

Definition run_callbacks (cs : list Callback) (a : App) : App :=
  fold_left (fun a c => run_callback c a) cs a.

(** ** The remote models

    What the outside world does during one pass of the retry loop: the two
    answers, and the listeners that run while each call is awaited. *)

Inductive GenerateResponse : Type :=
| generate_rejects                          (* the call rejects, or reading
                                               the candidates throws *)
| generate_resolves (base64Data : option string).
                                            (* the value of [... ?? null] *)

Inductive VerifyResponse : Type :=
| verify_rejects
| verify_resolves (isYES : bool).           (* response.text, trimmed and
                                               upper-cased, === 'YES' *)

Record Attempt : Type := mkAttempt {
  while_generating : list Callback;
  response : GenerateResponse;
  while_verifying : list Callback;
  verdict : VerifyResponse
}.

(** The world is asked by attempt number (from 1). *)
Definition World : Type := nat -> Attempt.

Definition verifyImageMatch (w : Attempt) (a : App) : App * bool :=
  let a := emit (generateContent gemini_flash) a in
  let a := run_callbacks (while_verifying w) a in
  match verdict w with
  | verify_resolves isYES => (a, isYES)
  | verify_rejects => (a, false)
  end.

Record GenerationResult : Type := mkResult {
  success : bool;
  base64Data : option string;
  terminated : bool
}.

(** How the [for] loop is left. *)
Inductive LoopExit : Type :=
| Returned (r : GenerationResult)
| Finished (success : bool) (successfulBase64Data : option string).

(** The [for] loop, [remaining] passes from pass number [attempt] on. *)
Fixpoint attempts (remaining attempt : nat) (world : World) (a : App)
  : App * LoopExit :=
  match remaining with
  | O => (a, Finished false None)
  | S remaining' =>
      if isGenerationTerminated a
      then (_updateUIState Terminating false a, Returned (mkResult false None true))
      else
        let w := world attempt in
        let a := emit (generateContent gemini_flash_image) a in
        let a := run_callbacks (while_generating w) a in
        match response w with
        | generate_resolves base64Data =>
            if truthy base64Data
            then
              if isCartoonMode a
              then (a, Finished true base64Data)
              else
                let (a, matched) := verifyImageMatch w a in
                if matched
                then (a, Finished true base64Data)
                else attempts remaining' (S attempt) world a
            else (* throw new Error(...), caught *)
              attempts remaining' (S attempt) world a
        | generate_rejects => (* caught *)
            attempts remaining' (S attempt) world a
        end
  end.

Definition generateSingleView (isRegeneration : bool) (world : World) (a : App)
  : App * GenerationResult :=
  let a := _updateUIState Loading isRegeneration a in
  match attempts MAX_ATTEMPTS 1 world a with
  | (a, Returned r) => (a, r)
  | (a, Finished success successfulBase64Data) =>
      let a :=
        if success
        then _updateUIState Success false
               (set_successfulImageData successfulBase64Data a)
        else
          let a := _updateUIState Failure isRegeneration a in
          if negb isRegeneration
          then set_failureCount (failureCount a + 1) a
          else a in
      (a, mkResult success successfulBase64Data false)
  end.

(** ** Main logic *)

Definition startGenerationProcess (world : World) (a : App) : App :=
  if negb (truthy (uploadedBase64Image a))
  then emit (alert UploadFirst) a
  else
    let a := set_isGenerationTerminated false a in
    let a := set_failureCount 0 a in
    let a := set_successfulImageData None a in
    (* updateTimer() ... finally stopTimer(); updateUsageDisplay() *)
    fst (generateSingleView false world a).

(** [limitReached]: [this.generationTimestamps.length >= MAX]. *)
Definition limitReached (a : App) : bool :=
  RATE_LIMIT_MAX_GENERATIONS <=? Z.of_nat (List.length (generationTimestamps a)).

(** [handleGenerationClick(type)].  [Date.now()] is read twice, inside
    [loadRateLimitData] and for the entry that is pushed. *)
Definition handleGenerationClick (type : GenerationType) (now_load now_push : Z)
    (world : World) (a : App) : App :=
  let a := loadRateLimitData now_load a in
  if limitReached a
  then emit (alert LimitReached) a
  else
    let a := set_generationTimestamps
               (generationTimestamps a ++ [JNumber now_push]) a in
    let a := saveTimestamps a in
    (* updateUsageDisplay(); startRateLimitTimer() *)
    match type with
    | generate => startGenerationProcess world a
    | regenerate => fst (generateSingleView true world a)
    end.

(** ** The object over its life *)

(** Field initialisers, then the constructor body: [loadRateLimitData()]. *)
Definition constructor (now : Z) (stored : StoredData) : App :=
  loadRateLimitData now (mkApp None 0 None false false [] stored Idle []).

Inductive Event : Type :=
| callback (c : Callback)
| generation_click (type : GenerationType) (now_load now_push : Z) (world : World).

Definition dispatch (e : Event) (a : App) : App :=
  match e with
  | callback c => run_callback c a
  | generation_click type now_load now_push world =>
      handleGenerationClick type now_load now_push world a
  end.

Definition run (es : list Event) (a : App) : App :=
  fold_left (fun a e => dispatch e a) es a.

(** ** What the sort and the filter do on an array of numbers

    On numbers nothing throws and the comparator is the order of [Z]; the two
    library calls are then the pure functions below. *)

Fixpoint insertZ (x : Z) (sorted : list Z) : list Z :=
  match sorted with
  | [] => [x]
  | y :: rest => if 0 <? x - y then y :: insertZ x rest else x :: y :: rest
  end.

Fixpoint sortZ (l : list Z) : list Z :=
  match l with
  | [] => []
  | x :: l' => insertZ x (sortZ l')
  end.

Definition fresh (now entry : Z) : bool := now - entry <? RATE_LIMIT_WINDOW_MS.

(** The stored value is the JSON text of a list of numbers. *)
Definition is_number (v : JSValue) : bool :=
  match v with
  | JNumber _ => true
  | _ => false
  end.

Definition is_list_of_numbers (stored : StoredData) : bool :=
  match stored with
  | Text (Some (ArrayOf members)) => forallb is_number members
  | _ => false
  end.

(** ** Bounds on the log *)

Definition within_limit (log : list JSValue) : Prop :=
  Z.of_nat (List.length log) <= RATE_LIMIT_MAX_GENERATIONS.

Definition stored_within_limit (stored : StoredData) : Prop :=
  match stored with
  | Text (Some (ArrayOf members)) => within_limit members
  | _ => True
  end.

Definition persists_within_limit (e : Effect) : Prop :=
  match e with
  | setItem value => within_limit value
  | _ => True
  end.

(** Every log the object holds, stores, or has ever stored is within the limit. *)
Definition bounded (a : App) : Prop :=
  within_limit (generationTimestamps a) /\
  stored_within_limit (localStorage a) /\
  Forall persists_within_limit (effects a).

(** ** Counting remote calls in a trace *)

Definition is_call (m : Model) (e : Effect) : bool :=
  match e, m with
  | generateContent gemini_flash_image, gemini_flash_image => true
  | generateContent gemini_flash, gemini_flash => true
  | _, _ => false
  end.

Definition calls (m : Model) (es : list Effect) : nat :=
  List.length (filter (is_call m) es).

(** ** Callbacks sorted by the fields they touch *)

(** Leaves the cartoon flag set. *)
Definition keeps_cartoon (c : Callback) : bool :=
  match c with
  | isCartoonCheckbox_change checked => checked
  | clearButton_click => false
  | _ => true
  end.

(** Leaves the log and the store alone. *)
Definition no_reload (c : Callback) : bool :=
  match c with
  | rateLimitTimer_reload _ => false
  | _ => true
  end.

(** Puts the failure counter back to zero: the clear button, and a file
    that is an image and was read to a non-empty result. *)
Definition resets_counter (c : Callback) : bool :=
  match c with
  | clearButton_click => true
  | imageInput_change (Some f) =>
      String.prefix "image/" (type f) && negb (String.eqb (result f) EmptyString)
  | _ => false
  end.

Definition quiet (p : Callback -> bool) (world : World) : Prop :=
  forall k, forallb p (while_generating (world k)) = true /\
            forallb p (while_verifying (world k)) = true.

(** ** The ways the retry loop can be left *)

Definition well_shaped_exit (x : LoopExit) : Prop :=
  match x with
  | Returned r => r = mkResult false None true
  | Finished false None => True
  | Finished true (Some payload) => payload <> EmptyString
  | Finished _ _ => False
  end.

(** The status a finished session shows. *)
Definition status_of (r : GenerationResult) : UIState :=
  if terminated r then Terminating
  else if success r then Success else Failure.

Definition is_failure (s : UIState) : bool :=
  match s with
  | Failure => true
  | _ => false
  end.

(** Leaves the failure counter alone. *)
Definition keeps_counter (c : Callback) : bool := negb (resets_counter c).

(** Two states with the same log, in memory and in the store. *)
Definition same_log (a a' : App) : Prop :=
  generationTimestamps a' = generationTimestamps a /\
  localStorage a' = localStorage a.

(** The trace of [a'] continues the trace of [a]. *)
Definition extends (a a' : App) : Prop :=
  exists added, effects a' = effects a ++ added.

(** ** The countdown to the next free slot ([startRateLimitTimer]) *)

(** [Number.MAX_SAFE_INTEGER], 2^53 - 1: up to it integers are doubles and
    their sums and differences are exact. *)
Definition MAX_SAFE_INTEGER : Z := 9007199254740991.

(** [oldestTimestamp + RATE_LIMIT_WINDOW_MS], as the subtraction that follows
    reads it.  A number, null or a boolean is added to.  A string is
    concatenated with "600000": for a string of digits this appends six
    digits (a value beyond the range in which doubles are exact for
    present-day timestamps; nothing is stated about such heads).  The sum
    and the difference taken from it are exact integers here and doubles in
    the source; the two agree while the head and the clock are safe
    integers, which is what the statement on the displayed minutes and
    seconds assumes. *)
Definition expiryTime (oldestTimestamp : JSValue) : Completion.t JSNumber :=
  match oldestTimestamp with
  | JDigits n =>
      Completion.ret
        (Num (if 0 <=? n then n * 1000000 + 600000 else n * 1000000 - 600000))
  | JNotANumber => Completion.ret NaN
  | v =>
      x <- ToNumber v ;;
      Completion.ret (match x with
                      | Num n => Num (n + RATE_LIMIT_WINDOW_MS)
                      | NaN => NaN
                      end)
  end.

(** [Math.max(0, x)] *)
Definition Math_max0 (x : JSNumber) : JSNumber :=
  match x with
  | Num n => Num (Z.max 0 n)
  | NaN => NaN
  end.

(** [Math.ceil(x / 1000)] on an integer number of milliseconds. *)
Definition ceil_seconds (x : JSNumber) : JSNumber :=
  match x with
  | Num n => Num ((n + 999) / 1000)
  | NaN => NaN
  end.

(** [Math.floor(x / 60)] and [x % 60] *)
Definition floor_minutes (x : JSNumber) : JSNumber :=
  match x with
  | Num n => Num (n / 60)
  | NaN => NaN
  end.

Definition rem_seconds (x : JSNumber) : JSNumber :=
  match x with
  | Num n => Num (Z.rem n 60)
  | NaN => NaN
  end.

(** [x.toString()] on an integer or [NaN]. *)
Definition Number_toString (x : JSNumber) : string :=
  match x with
  | Num n => NilZero.string_of_int (Z.to_int n)
  | NaN => "NaN"
  end.

Fixpoint replicate (n : nat) (c : Ascii.ascii) : string :=
  match n with
  | O => EmptyString
  | S n' => String c (replicate n' c)
  end.

(** [s.padStart(targetLength, c)] for a one-character pad. *)
Definition padStart (targetLength : nat) (c : Ascii.ascii) (s : string) : string :=
  (replicate (targetLength - String.length s) c ++ s)%string.

Definition zero_digit : Ascii.ascii := Ascii.Ascii false false false false true true false false.

(** What one run of the inner [updateTimer] does. *)
Inductive TimerAction : Type :=
| final_reload          (* the log is empty: stop, loadRateLimitData() *)
| slot_reset            (* nothing remains: stop, show that a slot was
                           reset, loadRateLimitData() in one second *)
| next_reset (minutes seconds : JSNumber) (mm ss : string).
                        (* show "mm:ss" until the next reset, keep ticking *)

(** The inner [updateTimer] of [startRateLimitTimer], at clock [now]. *)
Definition rateLimit_updateTimer (now : Z) (a : App) : Completion.t TimerAction :=
  match generationTimestamps a with
  | [] => Completion.ret final_reload
  | oldestTimestamp :: _ =>
      expiry <- expiryTime oldestTimestamp ;;
      let remainingMs := Math_max0 (minus expiry (Num now)) in
      match remainingMs with
      | Num 0 => Completion.ret slot_reset
      | _ =>
          let totalSeconds := ceil_seconds remainingMs in
          let minutes := floor_minutes totalSeconds in
          let seconds := rem_seconds totalSeconds in
          Completion.ret
            (next_reset minutes seconds
               (padStart 2 zero_digit (Number_toString minutes))
               (padStart 2 zero_digit (Number_toString seconds)))
      end
  end.

(** [startRateLimitTimer]: nothing is shown for an empty log; otherwise the
    inner [updateTimer] runs at once (and then every second). *)
Definition startRateLimitTimer (now : Z) (a : App)
  : option (Completion.t TimerAction) :=
  match generationTimestamps a with
  | [] => None
  | _ :: _ => Some (rateLimit_updateTimer now a)
  end.

(** ** The estimate shown while a view is generated ([updateTimer]) *)

Definition ESTIMATED_TIME_PER_VIEW : Z := 20.

Inductive TimerText : Type :=
| estimated_remaining (seconds : Z)
| still_processing.

Record ViewTimer : Type := mkViewTimer {
  timeLeft : Z;
  timerInterval : bool;       (* an interval is set *)
  timer_text : TimerText
}.

Definition updateText (timeLeft : Z) : TimerText :=
  if 0 <? timeLeft then estimated_remaining timeLeft else still_processing.

Definition stopTimer (t : ViewTimer) : ViewTimer :=
  mkViewTimer (timeLeft t) false (timer_text t).

(** [updateTimer()]: stop what was running, start from the estimate. *)
Definition updateTimer (t : ViewTimer) : ViewTimer :=
  let t := stopTimer t in
  mkViewTimer ESTIMATED_TIME_PER_VIEW true (updateText ESTIMATED_TIME_PER_VIEW).

(** The interval callback; a cleared interval does not call back. *)
Definition interval_tick (t : ViewTimer) : ViewTimer :=
  if timerInterval t
  then
    let timeLeft := timeLeft t - 1 in
    let text := updateText timeLeft in
    if timeLeft <=? 0
    then stopTimer (mkViewTimer timeLeft true text)
    else mkViewTimer timeLeft true text
  else t.

Fixpoint interval_ticks (n : nat) (t : ViewTimer) : ViewTimer :=
  match n with
  | O => t
  | S n' => interval_ticks n' (interval_tick t)
  end.

(** ** Handing the image out ([downloadImage]) *)

(** What the browser does when asked. *)
Record Browser : Type := mkBrowser {
  share_api : bool;        (* navigator.share && navigator.canShare *)
  share_fetch : bool;      (* in the first try: fetch, blob and File succeed *)
  canShare_files : bool;   (* navigator.canShare({ files: [file] }) *)
  share_resolves : bool;   (* navigator.share(...) resolves *)
  link_download : bool;    (* the second try block runs through *)
  window_open : bool       (* window.open() returns a tab *)
}.

Inductive Delivery : Type :=
| console_warn                                (* no image data *)
| console_error
| share (fileName imgSrc : string)            (* navigator.share is called *)
| link_click (fileName imgSrc : string)       (* the download link is clicked *)
| alert_download_failed
| tab_write (imgSrc : string).                (* the image is written to a new tab *)

(** The direct download and its fallback. *)
Definition direct_download (b : Browser) (fileName imgSrc : string)
  : list Delivery :=
  if link_download b
  then [link_click fileName imgSrc]
  else console_error :: alert_download_failed
       :: (if window_open b then [tab_write imgSrc] else []).

Definition downloadImage (viewName : string) (useShareApi : bool)
    (b : Browser) (a : App) : list Delivery :=
  match successfulImageData a with
  | Some data =>
      if truthy (Some data)
      then
        let imgSrc := ("data:image/jpeg;base64," ++ data)%string in
        let fileName := ("id_photo_" ++ viewName ++ ".jpg")%string in
        if useShareApi && share_api b
        then
          if share_fetch b
          then
            if canShare_files b
            then
              if share_resolves b
              then [share fileName imgSrc]
              else share fileName imgSrc :: console_error
                   :: direct_download b fileName imgSrc
            else direct_download b fileName imgSrc
          else console_error :: direct_download b fileName imgSrc
        else direct_download b fileName imgSrc
      else [console_warn]
  | None => [console_warn]
  end.

(** ** More ways to sort callbacks *)

(** Leaves the cancellation flag unset. *)
Definition keeps_running (c : Callback) : bool :=
  match c with
  | terminate_click => false
  | _ => true
  end.

(** Leaves the last successful image alone. *)
Definition keeps_image (c : Callback) : bool :=
  match c with
  | clearButton_click => false
  | _ => true
  end.

(** The call returns something the loop can use. *)
Definition has_payload (r : GenerateResponse) : bool :=
  match r with
  | generate_resolves base64Data => truthy base64Data
  | generate_rejects => false
  end.

(** The same attempt with every failure replaced by the empty answer it is
    taken for: a rejected generation call or an empty payload by [null], a
    rejected verification call by a mismatch. *)
Definition swallowed (w : Attempt) : Attempt :=
  mkAttempt (while_generating w)
            (if has_payload (response w) then response w
             else generate_resolves None)
            (while_verifying w)
            (match verdict w with
             | verify_rejects => verify_resolves false
             | v => v
             end).

(** The log in memory is the one in the store. *)
Definition synced (a : App) : Prop :=
  localStorage a = JSON_stringify (generationTimestamps a).

(** Any event but a click on generate. *)
Definition only_regenerate (e : Event) : bool :=
  match e with
  | generation_click generate _ _ _ => false
  | _ => true
  end.

(** The log, in memory and in the store, is one list of numbers. *)
Definition numeric_log (a : App) : Prop :=
  exists log : list Z,
    generationTimestamps a = map JNumber log /\
    localStorage a = JSON_stringify (map JNumber log).

(** ** Sessions that overlap

    The same methods, one step at a time.  A session that is awaiting a
    remote call is kept beside the object, and the events of the page are
    delivered one by one: a click starts a session and runs it up to its
    first [await]; a listener runs; a remote call settles and the session
    that awaited it runs on to its next [await] or to its end.  Nothing
    keeps a click from arriving while sessions are in flight. *)

Inductive Awaited : Type :=
| awaiting_generation                       (* the call to the generator *)
| awaiting_verification (base64Data : option string).
                                            (* verifyImageMatch, for this
                                               candidate *)

Record Session : Type := mkSession {
  session_isRegeneration : bool;
  session_attempt : nat;
  session_awaited : Awaited
}.

Record Page : Type := mkPage {
  page_app : App;
  in_flight : list Session
}.

(** What follows the loop in [generateSingleView]. *)
Definition finish (isRegeneration success : bool)
    (successfulBase64Data : option string) (a : App) : App :=
  if success
  then _updateUIState Success false
         (set_successfulImageData successfulBase64Data a)
  else
    let a := _updateUIState Failure isRegeneration a in
    if negb isRegeneration
    then set_failureCount (failureCount a + 1) a
    else a.

(** The head of the loop for pass number [attempt]: leave the loop, return
    terminated, or call the generator and wait. *)
Definition next_attempt (isRegeneration : bool) (attempt : nat) (a : App)
  : App * option Session :=
  if (attempt <=? MAX_ATTEMPTS)%nat
  then
    if isGenerationTerminated a
    then (_updateUIState Terminating false a, None)
    else (emit (generateContent gemini_flash_image) a,
          Some (mkSession isRegeneration attempt awaiting_generation))
  else (finish isRegeneration false None a, None).

(** [generateSingleView(isRegeneration)] up to its first [await]. *)
Definition begin_generateSingleView (isRegeneration : bool) (a : App)
  : App * option Session :=
  next_attempt isRegeneration 1 (_updateUIState Loading isRegeneration a).

(** The session runs on after the call it awaited has settled. *)
Definition generation_settles (s : Session) (r : GenerateResponse) (a : App)
  : App * option Session :=
  match session_awaited s with
  | awaiting_generation =>
      match r with
      | generate_resolves base64Data =>
          if truthy base64Data
          then
            if isCartoonMode a
            then (finish (session_isRegeneration s) true base64Data a, None)
            else (emit (generateContent gemini_flash) a,
                  Some (mkSession (session_isRegeneration s) (session_attempt s)
                                  (awaiting_verification base64Data)))
          else next_attempt (session_isRegeneration s) (S (session_attempt s)) a
      | generate_rejects =>
          next_attempt (session_isRegeneration s) (S (session_attempt s)) a
      end
  | awaiting_verification _ => (a, Some s)
  end.

Definition verification_settles (s : Session) (v : VerifyResponse) (a : App)
  : App * option Session :=
  match session_awaited s with
  | awaiting_verification base64Data =>
      let matched := match v with
                     | verify_resolves isYES => isYES
                     | verify_rejects => false
                     end in
      if matched
      then (finish (session_isRegeneration s) true base64Data a, None)
      else next_attempt (session_isRegeneration s) (S (session_attempt s)) a
  | awaiting_generation => (a, Some s)
  end.

(** [handleGenerationClick(type)] up to the first [await] of its session. *)
Definition begin_click (type : GenerationType) (now_load now_push : Z) (a : App)
  : App * option Session :=
  let a := loadRateLimitData now_load a in
  if limitReached a
  then (emit (alert LimitReached) a, None)
  else
    let a := set_generationTimestamps
               (generationTimestamps a ++ [JNumber now_push]) a in
    let a := saveTimestamps a in
    match type with
    | generate =>
        if negb (truthy (uploadedBase64Image a))
        then (emit (alert UploadFirst) a, None)
        else
          let a := set_isGenerationTerminated false a in
          let a := set_failureCount 0 a in
          let a := set_successfulImageData None a in
          begin_generateSingleView false a
    | regenerate => begin_generateSingleView true a
    end.

Inductive PageEvent : Type :=
| page_click (type : GenerationType) (now_load now_push : Z)
| page_listener (c : Callback)
| call_settles (i : nat) (r : GenerateResponse)
                        (* the generator answers the i-th session in flight *)
| verify_settles (i : nat) (v : VerifyResponse).

(** Put the session back in its place, or take it out when it is over. *)
Fixpoint resume (i : nat) (k : Session -> App -> App * option Session)
    (sessions : list Session) (a : App) : App * list Session :=
  match sessions, i with
  | [], _ => (a, [])
  | s :: rest, O =>
      match k s a with
      | (a', Some s') => (a', s' :: rest)
      | (a', None) => (a', rest)
      end
  | s :: rest, S i' =>
      let (a', rest') := resume i' k rest a in (a', s :: rest')
  end.

Definition page_step (e : PageEvent) (p : Page) : Page :=
  match e with
  | page_click type now_load now_push =>
      match begin_click type now_load now_push (page_app p) with
      | (a, Some s) => mkPage a (in_flight p ++ [s])
      | (a, None) => mkPage a (in_flight p)
      end
  | page_listener c => mkPage (run_callback c (page_app p)) (in_flight p)
  | call_settles i r =>
      let (a, sessions) :=
        resume i (fun s => generation_settles s r) (in_flight p) (page_app p) in
      mkPage a sessions
  | verify_settles i v =>
      let (a, sessions) :=
        resume i (fun s => verification_settles s v) (in_flight p) (page_app p) in
      mkPage a sessions
  end.

Definition page_run (es : list PageEvent) (p : Page) : Page :=
  fold_left (fun p e => page_step e p) es p.

(** The page when the constructor has run. *)
Definition page_constructor (now : Z) (stored : StoredData) : Page :=
  mkPage (constructor now stored) [].

Definition no_session (p : Page) : bool :=
  match in_flight p with
  | [] => true
  | _ :: _ => false
  end.

(** Every click of the sequence arrives when no session is in flight. *)
Fixpoint one_at_a_time (es : list PageEvent) (p : Page) : bool :=
  match es with
  | [] => true
  | e :: es' =>
      match e with
      | page_click _ _ _ => no_session p
      | _ => true
      end && one_at_a_time es' (page_step e p)
  end.

Definition is_click (e : PageEvent) : bool :=
  match e with
  | page_click _ _ _ => true
  | _ => false
  end.

(** One session driven to its end by the answers of a [World]: while the
    only session in flight awaits a call, the listeners of that pass run
    and the call settles. *)
Definition drive_step (world : World) (p : Page) : Page :=
  match in_flight p with
  | s :: _ =>
      let w := world (session_attempt s) in
      match session_awaited s with
      | awaiting_generation =>
          page_step (call_settles 0 (response w))
            (mkPage (run_callbacks (while_generating w) (page_app p)) (in_flight p))
      | awaiting_verification _ =>
          page_step (verify_settles 0 (verdict w))
            (mkPage (run_callbacks (while_verifying w) (page_app p)) (in_flight p))
      end
  | [] => p
  end.

Fixpoint drive (fuel : nat) (world : World) (p : Page) : Page :=
  match fuel with
  | O => p
  | S fuel' => drive fuel' world (drive_step world p)
  end.

(** What [generateSingleView] makes of the way the loop was left. *)
Definition conclude (isRegeneration : bool) (x : App * LoopExit) : App :=
  match x with
  | (a, Returned _) => a
  | (a, Finished success successfulBase64Data) =>
      finish isRegeneration success successfulBase64Data a
  end.

Definition sessions_of (s : option Session) : list Session :=
  match s with
  | Some s => [s]
  | None => []
  end.

(** At most one session is in flight, and the counter is clear while a
    generate session runs. *)
Definition counter_is_flag (p : Page) : Prop :=
  (List.length (in_flight p) <= 1)%nat /\
  0 <= failureCount (page_app p) <= 1 /\
  (forall s, In s (in_flight p) -> session_isRegeneration s = false ->
             failureCount (page_app p) = 0).

(** At most one session is in flight, no image is stored while it runs, and
    an image that is stored is the one on show. *)
Definition image_is_shown (p : Page) : Prop :=
  (List.length (in_flight p) <= 1)%nat /\
  (in_flight p <> [] -> successfulImageData (page_app p) = None) /\
  (successfulImageData (page_app p) = None \/ uiState (page_app p) = Success).

(** * Properties *)

(** ** Sorting and filtering *)

Lemma insert_numbers (x : Z) (l : list Z) :
  insert (JNumber x) (map JNumber l) = Some (map JNumber (insertZ x l)).
Proof.
  induction l as [|y l IH]; [reflexivity|].
  cbn [map insert insertZ]. unfold compareFn, subtract. cbn.
  destruct (0 <? x - y); [|reflexivity].
  rewrite IH. reflexivity.
Qed.

Lemma Array_sort_numbers (l : list Z) :
  Array_sort (map JNumber l) = Some (map JNumber (sortZ l)).
Proof.
  induction l as [|x l IH]; [reflexivity|].
  cbn [map Array_sort sortZ]. rewrite IH. cbn. apply insert_numbers.
Qed.

Lemma Array_filter_numbers (now : Z) (l : list Z) :
  Array_filter (in_window now) (map JNumber l)
  = Some (map JNumber (filter (fresh now) l)).
Proof.
  induction l as [|x l IH]; [reflexivity|].
  cbn [map Array_filter filter]. rewrite IH.
  unfold in_window, fresh.
  cbn [ToNumber Completion.bind Completion.ret minus lessThan].
  destruct (now - x <? RATE_LIMIT_WINDOW_MS); reflexivity.
Qed.

Lemma insertZ_Permutation (x : Z) (l : list Z) :
  Permutation (insertZ x l) (x :: l).
Proof.
  induction l as [|y l IH]; cbn; [reflexivity|].
  destruct (0 <? x - y); [|reflexivity].
  rewrite IH. apply perm_swap.
Qed.

Lemma sortZ_Permutation (l : list Z) : Permutation (sortZ l) l.
Proof.
  induction l as [|x l IH]; cbn; [reflexivity|].
  rewrite insertZ_Permutation. now constructor.
Qed.

Lemma insertZ_sorted (x : Z) (l : list Z) :
  StronglySorted Z.le l -> StronglySorted Z.le (insertZ x l).
Proof.
  induction 1 as [|y l Hl IH Hy]; cbn.
  - repeat constructor.
  - destruct (0 <? x - y) eqn:E.
    + apply Z.ltb_lt in E. constructor; [assumption|].
      apply (Permutation_Forall (Permutation_sym (insertZ_Permutation x l))).
      constructor; [lia | assumption].
    + apply Z.ltb_ge in E. constructor.
      * now constructor.
      * constructor; [lia|].
        eapply Forall_impl; [|exact Hy]. cbn. intros; lia.
Qed.

Lemma sortZ_sorted (l : list Z) : StronglySorted Z.le (sortZ l).
Proof.
  induction l as [|x l IH]; cbn; [constructor | now apply insertZ_sorted].
Qed.

Lemma filter_sorted (f : Z -> bool) (l : list Z) :
  StronglySorted Z.le l -> StronglySorted Z.le (filter f l).
Proof.
  induction 1 as [|y l Hl IH Hy]; cbn; [constructor|].
  destruct (f y); [|assumption].
  constructor; [assumption|].
  apply Forall_forall. intros z Hz. apply filter_In in Hz as [Hz _].
  rewrite Forall_forall in Hy. now apply Hy.
Qed.

Lemma filter_fresh (now : Z) (l : list Z) :
  Forall (fun entry => now - entry < RATE_LIMIT_WINDOW_MS) (filter (fresh now) l).
Proof.
  apply Forall_forall. intros z Hz. apply filter_In in Hz as [_ Hz].
  unfold fresh in Hz. now apply Z.ltb_lt in Hz.
Qed.


(** ** What survives the sort and the filter, whatever the members are *)

Lemma insert_length (x : JSValue) (l s : list JSValue) :
  insert x l = Some s -> List.length s = S (List.length l).
Proof.
  revert s. induction l as [|y l IH]; cbn; intros s H.
  - now inversion H.
  - destruct (compareFn x y) as [v|]; cbn in H; [|discriminate].
    destruct (positive v).
    + destruct (insert x l) as [r|]; cbn in H; [|discriminate].
      inversion H; subst. cbn. f_equal. now apply IH.
    + now inversion H.
Qed.

Lemma Array_sort_length (l s : list JSValue) :
  Array_sort l = Some s -> List.length s = List.length l.
Proof.
  revert s. induction l as [|x l IH]; cbn; intros s H.
  - now inversion H.
  - destruct (Array_sort l) as [r|]; cbn in H; [|discriminate].
    apply insert_length in H. rewrite H. f_equal. now apply IH.
Qed.

Lemma Array_filter_length (p : JSValue -> Completion.t bool) (l r : list JSValue) :
  Array_filter p l = Some r -> (List.length r <= List.length l)%nat.
Proof.
  revert r. induction l as [|x l IH]; cbn; intros r H.
  - inversion H. cbn. lia.
  - destruct (p x) as [keep|]; cbn in H; [|discriminate].
    destruct (Array_filter p l) as [r'|]; cbn in H; [|discriminate].
    specialize (IH _ eq_refl). inversion H; subst.
    destruct keep; cbn; lia.
Qed.

Lemma insert_In (v x : JSValue) (l s : list JSValue) :
  insert x l = Some s -> In v (x :: l) -> In v s.
Proof.
  revert s. induction l as [|y l IH]; cbn; intros s H Hin.
  - inversion H; subst. cbn. tauto.
  - destruct (compareFn x y) as [c|]; cbn in H; [|discriminate].
    destruct (positive c).
    + destruct (insert x l) as [r|]; cbn in H; [|discriminate].
      inversion H; subst. cbn.
      destruct Hin as [Hin|[Hin|Hin]]; auto.
      * right. apply (IH r eq_refl). cbn. auto.
      * right. apply (IH r eq_refl). cbn. auto.
    + inversion H; subst. cbn. tauto.
Qed.

Lemma Array_sort_In (v : JSValue) (l s : list JSValue) :
  Array_sort l = Some s -> In v l -> In v s.
Proof.
  revert s. induction l as [|x l IH]; cbn; intros s H Hin; [tauto|].
  destruct (Array_sort l) as [r|]; cbn in H; [|discriminate].
  apply (insert_In v) in H; [assumption|].
  destruct Hin as [->|Hin]; cbn; auto.
Qed.

Lemma Array_filter_throws (p : JSValue -> Completion.t bool) (v : JSValue)
      (l : list JSValue) :
  p v = None -> In v l -> Array_filter p l = None.
Proof.
  intros Hp. induction l as [|x l IH]; cbn; [tauto|].
  intros [->|Hin].
  - now rewrite Hp.
  - destruct (p x); cbn; [|reflexivity]. now rewrite IH.
Qed.

Lemma insert_In_inv (v x : JSValue) (l s : list JSValue) :
  insert x l = Some s -> In v s -> In v (x :: l).
Proof.
  revert s. induction l as [|y l IH]; cbn; intros s H Hin.
  - inversion H; subst. exact Hin.
  - destruct (compareFn x y) as [c|]; cbn in H; [|discriminate].
    destruct (positive c).
    + destruct (insert x l) as [r|]; cbn in H; [|discriminate].
      inversion H; subst. destruct Hin as [Hin|Hin]; [auto|].
      destruct (IH r eq_refl Hin) as [E|E]; auto.
    + inversion H; subst. exact Hin.
Qed.

Lemma Array_sort_In_inv (v : JSValue) (l s : list JSValue) :
  Array_sort l = Some s -> In v s -> In v l.
Proof.
  revert s. induction l as [|x l IH]; cbn; intros s H Hin.
  - inversion H; subst. exact Hin.
  - destruct (Array_sort l) as [r|]; cbn in H; [|discriminate].
    destruct (insert_In_inv v _ _ _ H Hin) as [E|E]; eauto.
Qed.

Lemma Array_filter_In (p : JSValue -> Completion.t bool) (v : JSValue)
      (l r : list JSValue) :
  Array_filter p l = Some r -> (In v r <-> In v l /\ p v = Some true).
Proof.
  revert r. induction l as [|x l IH]; cbn; intros r H.
  - inversion H; subst. cbn. tauto.
  - destruct (p x) as [keep|] eqn:E; cbn in H; [|discriminate].
    destruct (Array_filter p l) as [r'|]; cbn in H; [|discriminate].
    specialize (IH r' eq_refl). inversion H; subst.
    destruct keep; cbn; rewrite ?IH; split.
    + intros [->|[? ?]]; auto.
    + intros [[->|?] ?]; auto.
    + intros [? ?]; auto.
    + intros [[->|?] ?]; [congruence | auto].
Qed.

(** Members that can all be coerced are sorted and filtered without a throw. *)
Lemma coercible (v : JSValue) :
  v <> JUncoercible -> exists n, ToNumber v = Some n.
Proof. destruct v; cbn; intros H; eauto. congruence. Qed.

Lemma insert_total (x : JSValue) (l : list JSValue) :
  ~ In JUncoercible (x :: l) -> exists s, insert x l = Some s.
Proof.
  induction l as [|y l IH]; cbn; intros H; [eauto|].
  destruct (coercible x) as (nx & Ex); [intuition congruence|].
  destruct (coercible y) as (ny & Ey); [intuition congruence|].
  unfold compareFn, subtract. rewrite Ex, Ey. cbn.
  destruct (positive (minus nx ny)); [|eauto].
  destruct IH as (s & Es); [cbn; tauto|]. rewrite Es. cbn. eauto.
Qed.

Lemma Array_sort_total (l : list JSValue) :
  ~ In JUncoercible l -> exists s, Array_sort l = Some s.
Proof.
  induction l as [|x l IH]; cbn; intros H; [eauto|].
  destruct IH as (s & Es); [tauto|]. rewrite Es. cbn.
  apply insert_total. intros [E|Hin]; [tauto|].
  apply H. right. now apply (Array_sort_In_inv _ l s).
Qed.

Lemma Array_filter_total (now : Z) (l : list JSValue) :
  ~ In JUncoercible l -> exists r, Array_filter (in_window now) l = Some r.
Proof.
  induction l as [|x l IH]; cbn; intros H; [eauto|].
  destruct (coercible x) as (n & E); [intuition congruence|].
  destruct IH as (r & Er); [tauto|].
  unfold in_window at 1. rewrite E, Er. cbn. eauto.
Qed.

Lemma in_window_true (now : Z) (m : JSValue) :
  in_window now m = Some true <->
  exists n, ToNumber m = Some (Num n) /\ now - n < RATE_LIMIT_WINDOW_MS.
Proof.
  unfold in_window. destruct (ToNumber m) as [[|n]|]; cbn.
  - split; [discriminate | intros (n & E & _); discriminate].
  - split.
    + intros H. exists n. split; [reflexivity|].
      apply Z.ltb_lt. now inversion H.
    + intros (n' & E & H). inversion E; subst.
      apply Z.ltb_lt in H. unfold Completion.ret. now rewrite H.
  - split; [discriminate | intros (n & E & _); discriminate].
Qed.

(** What the [try] block keeps of an array whose members can all be
    coerced: the members, of whatever type, that pass the window test. *)
Lemma parse_sort_filter_keeps (now : Z) (members : list JSValue) :
  ~ In JUncoercible members ->
  exists log,
    parse_sort_filter now (Text (Some (ArrayOf members))) = Some log /\
    forall m, In m log <->
              In m members /\
              exists n, ToNumber m = Some (Num n) /\
                        now - n < RATE_LIMIT_WINDOW_MS.
Proof.
  intros H. unfold parse_sort_filter. cbn [JSON_parse Completion.bind Completion.ret].
  destruct (Array_sort_total members H) as (s & Es). rewrite Es.
  cbn [Completion.bind].
  destruct (Array_filter_total now s) as (log & El).
  { intros Hin. apply H. now apply (Array_sort_In_inv _ members s). }
  exists log. split; [exact El|].
  intros m. rewrite (Array_filter_In _ m s log El), in_window_true.
  split; intros [Hin Hw]; (split; [|exact Hw]).
  - now apply (Array_sort_In_inv _ members s).
  - now apply (Array_sort_In _ members s).
Qed.

(** The [try] block throws as soon as one member cannot be coerced. *)
Lemma parse_sort_filter_throws (now : Z) (members : list JSValue) :
  In JUncoercible members ->
  parse_sort_filter now (Text (Some (ArrayOf members))) = None.
Proof.
  intros Hin. unfold parse_sort_filter. cbn.
  destruct (Array_sort members) as [s|] eqn:E; cbn; [|reflexivity].
  apply (Array_filter_throws _ JUncoercible); [reflexivity|].
  now apply (Array_sort_In _ members).
Qed.

Lemma parse_sort_filter_length (now : Z) (members log : list JSValue) :
  parse_sort_filter now (Text (Some (ArrayOf members))) = Some log ->
  (List.length log <= List.length members)%nat.
Proof.
  unfold parse_sort_filter. cbn.
  destruct (Array_sort members) as [s|] eqn:E; cbn; [|discriminate].
  intros H. apply Array_filter_length in H. apply Array_sort_length in E. lia.
Qed.


(** ** Loading the log *)

Lemma filter_Permutation (f : Z -> bool) (l l' : list Z) :
  Permutation l l' -> Permutation (filter f l) (filter f l').
Proof.
  induction 1 as [|x l l' _ IH|x y l|l l' l'' _ IH1 _ IH2]; cbn.
  - constructor.
  - destruct (f x); [now constructor | assumption].
  - destruct (f x), (f y); try reflexivity. apply perm_swap.
  - now transitivity (filter f l').
Qed.

(** What [loadRateLimitData] leaves in the log, by stored value. *)
Lemma load_unfold (now : Z) (a : App) :
  loadRateLimitData now a
  = saveTimestamps
      (set_generationTimestamps
         (if truthy_stored (localStorage a)
          then Completion.try_catch (parse_sort_filter now (localStorage a)) []
          else []) a).
Proof. reflexivity. Qed.

Lemma load_effects (now : Z) (a : App) :
  effects (loadRateLimitData now a)
  = effects a ++ [setItem (generationTimestamps (loadRateLimitData now a))].
Proof. reflexivity. Qed.

Lemma load_localStorage (now : Z) (a : App) :
  localStorage (loadRateLimitData now a)
  = JSON_stringify (generationTimestamps (loadRateLimitData now a)).
Proof. reflexivity. Qed.

Lemma load_numbers (now : Z) (ts : list Z) (a : App) :
  localStorage a = JSON_stringify (map JNumber ts) ->
  generationTimestamps (loadRateLimitData now a)
  = map JNumber (filter (fresh now) (sortZ ts)).
Proof.
  intros H. rewrite load_unfold. cbn [saveTimestamps emit set_localStorage
    set_generationTimestamps generationTimestamps].
  rewrite H. unfold JSON_stringify, parse_sort_filter.
  cbn [truthy_stored JSON_parse Completion.bind Completion.ret].
  rewrite Array_sort_numbers. cbn [Completion.bind].
  rewrite Array_filter_numbers. reflexivity.
Qed.

(** What is left in the log has passed the window test, whatever was
    stored. *)
Lemma load_members_pass (now : Z) (a : App) (m : JSValue) :
  In m (generationTimestamps (loadRateLimitData now a)) ->
  in_window now m = Some true.
Proof.
  rewrite load_unfold.
  cbn [saveTimestamps emit set_localStorage set_generationTimestamps
       generationTimestamps].
  destruct (localStorage a) as [| |[[|members]|]];
    cbn [truthy_stored]; try (intros []).
  unfold parse_sort_filter.
  cbn [JSON_parse Completion.bind Completion.ret].
  destruct (Array_sort members) as [sorted|]; cbn [Completion.bind];
    [|intros []].
  destruct (Array_filter (in_window now) sorted) as [log|] eqn:E;
    cbn [Completion.try_catch]; [|intros []].
  intros Hin. now apply (Array_filter_In _ m sorted log E) in Hin.
Qed.




(** C8, as the code has it.  [loadRateLimitData] is a total function: what
    is thrown inside its [try] block is caught.  When the stored value is
    absent, the empty string, text that [JSON.parse] rejects, a JSON document
    that is not an array, or an array with a member that cannot be coerced to
    a number, the log becomes empty and the empty log is written back.  The
    members of a stored array are not checked to be numbers: when all of them
    can be coerced, the log keeps exactly the members [m], of whatever type,
    with [now - Number(m) < RATE_LIMIT_WINDOW_MS]. *)
Theorem load_fails_soft (now : Z) (a : App) :
  let a' := loadRateLimitData now a in
  (localStorage a = Null \/
   localStorage a = Empty \/
   localStorage a = Text None \/
   localStorage a = Text (Some NotArray) \/
   (exists members, localStorage a = Text (Some (ArrayOf members)) /\
                    In JUncoercible members) ->
   generationTimestamps a' = [] /\
   localStorage a' = JSON_stringify [] /\
   effects a' = effects a ++ [setItem []]) /\
  (forall members,
      localStorage a = Text (Some (ArrayOf members)) ->
      ~ In JUncoercible members ->
      forall m, In m (generationTimestamps a') <->
                In m members /\
                exists n, ToNumber m = Some (Num n) /\
                          now - n < RATE_LIMIT_WINDOW_MS).
Proof.
  intros a'. split.
  - intros H.
    assert (Hlog : generationTimestamps a' = []).
    { unfold a'. rewrite load_unfold.
      cbn [saveTimestamps emit set_localStorage set_generationTimestamps
           generationTimestamps].
      destruct H as [H|[H|[H|[H|(members & H & Hin)]]]]; rewrite H;
        try reflexivity.
      cbn [truthy_stored]. now rewrite parse_sort_filter_throws. }
    split; [exact Hlog|]. split.
    + unfold a'. rewrite load_localStorage. fold a'. now rewrite Hlog.
    + unfold a'. rewrite load_effects. fold a'. now rewrite Hlog.
  - intros members H Hok.
    destruct (parse_sort_filter_keeps now members Hok) as (log & El & Hl).
    assert (Hlog : generationTimestamps a' = log).
    { unfold a'. rewrite load_unfold.
      cbn [saveTimestamps emit set_localStorage set_generationTimestamps
           generationTimestamps].
      rewrite H. cbn [truthy_stored]. now rewrite El. }
    rewrite Hlog. exact Hl.
Qed.

Lemma load_fails_soft_witness :
  let a := mkApp None 0 None false false []
             (Text (Some (ArrayOf [JNumber 1762000000000; JUncoercible])))
             Idle [] in
  let a' := loadRateLimitData 1762000005000 a in
  generationTimestamps a' = [] /\
  localStorage a' = JSON_stringify [] /\
  effects a' = effects a ++ [setItem []].
Proof.
  intros a. apply (proj1 (load_fails_soft 1762000005000 a)).
  right; right; right; right.
  exists [JNumber 1762000000000; JUncoercible]. split; [reflexivity|].
  cbn. tauto.
Defined.

(** C8, as stated, fails: the stored text ["1762000000000"] (an array holding
    one string) is not a list of numbers, yet five seconds after that instant
    the entry passes the window test ([now - "1762000000000"] is 5000), so
    the log is not empty and the string is written back. *)
Lemma load_keeps_digit_strings :
  let stored := Text (Some (ArrayOf [JDigits 1762000000000])) in
  let a' := loadRateLimitData 1762000005000
              (mkApp None 0 None false false [] stored Idle []) in
  is_list_of_numbers stored = false /\
  generationTimestamps a' = [JDigits 1762000000000] /\
  generationTimestamps a' <> [] /\
  localStorage a' = stored.
Proof.
  cbn. repeat split; try reflexivity. discriminate.
Qed.

(** ** The bound on the log is kept by every method *)

Create HintDb app discriminated.

Lemma within_limit_nil : within_limit [].
Proof. unfold within_limit, RATE_LIMIT_MAX_GENERATIONS. cbn. lia. Qed.

Lemma load_within_limit (now : Z) (a : App) :
  stored_within_limit (localStorage a) ->
  within_limit (generationTimestamps (loadRateLimitData now a)).
Proof.
  intros H. rewrite load_unfold.
  cbn [saveTimestamps emit set_localStorage set_generationTimestamps
       generationTimestamps].
  destruct (localStorage a) as [| |[[|members]|]];
    cbn [truthy_stored]; try apply within_limit_nil.
  destruct (parse_sort_filter now (Text (Some (ArrayOf members)))) as [log|] eqn:E;
    cbn [Completion.try_catch]; [|apply within_limit_nil].
  apply parse_sort_filter_length in E.
  cbn in H. unfold within_limit in *. lia.
Qed.

Lemma saveTimestamps_bounded (a : App) :
  within_limit (generationTimestamps a) ->
  Forall persists_within_limit (effects a) ->
  bounded (saveTimestamps a).
Proof.
  intros Hlog Heff. repeat split; cbn; [assumption..|].
  apply Forall_app. split; [assumption|]. now repeat constructor.
Qed.

Lemma load_bounded (now : Z) (a : App) :
  bounded a -> bounded (loadRateLimitData now a).
Proof.
  intros (Hlog & Hst & Heff).
  pose proof (load_within_limit now a Hst) as H.
  repeat split.
  - exact H.
  - rewrite load_localStorage. exact H.
  - rewrite load_effects. apply Forall_app. split; [assumption|].
    now repeat constructor.
Qed.

Lemma emit_bounded (e : Effect) (a : App) :
  persists_within_limit e -> bounded a -> bounded (emit e a).
Proof.
  intros He (Hlog & Hst & Heff). repeat split; cbn; [assumption..|].
  apply Forall_app. split; [assumption|]. now repeat constructor.
Qed.

Lemma _updateUIState_bounded (s : UIState) (r : bool) (a : App) :
  bounded a -> bounded (_updateUIState s r a).
Proof.
  intros H. unfold _updateUIState. apply emit_bounded; [exact I|].
  destruct H as (? & ? & ?). now repeat split.
Qed.

Lemma resetUI_bounded (a : App) : bounded a -> bounded (resetUI a).
Proof.
  intros (Hlog & Hst & Heff). repeat split; cbn; [assumption..|].
  apply Forall_app. split; [assumption|]. now repeat constructor.
Qed.

Lemma handleFile_bounded (file : option File) (a : App) :
  bounded a -> bounded (handleFile file a).
Proof.
  intros H. unfold handleFile.
  destruct file as [f|]; [|assumption].
  destruct (String.prefix "image/" (type f)).
  - destruct (negb (String.eqb (result f) EmptyString)); [|assumption].
    destruct (includes comma (result f));
      destruct H as (? & ? & ?); now repeat split.
  - now apply emit_bounded.
Qed.

Lemma run_callback_bounded (c : Callback) (a : App) :
  bounded a -> bounded (run_callback c a).
Proof.
  intros H. destruct c; cbn [run_callback].
  - destruct H as (? & ? & ?). now repeat split.
  - destruct H as (? & ? & ?). now repeat split.
  - now apply resetUI_bounded.
  - now apply handleFile_bounded.
  - now apply load_bounded.
Qed.

Lemma run_callbacks_bounded (cs : list Callback) (a : App) :
  bounded a -> bounded (run_callbacks cs a).
Proof.
  revert a. induction cs as [|c cs IH]; intros a H; cbn; [assumption|].
  apply IH. now apply run_callback_bounded.
Qed.

Lemma generateContent_bounded (m : Model) (a : App) :
  bounded a -> bounded (emit (generateContent m) a).
Proof. apply emit_bounded. exact I. Qed.

#[local] Hint Resolve load_bounded generateContent_bounded
  _updateUIState_bounded run_callbacks_bounded run_callback_bounded : app.

(** Case analysis on one pass of the retry loop. *)
Ltac one_pass a1 :=
  cbn [attempts];
  match goal with
  | |- context [isGenerationTerminated ?a] =>
      destruct (isGenerationTerminated a) eqn:?
  end;
  [ | match goal with
      | |- context [run_callbacks ?cs ?a0] =>
          set (a1 := run_callbacks cs a0) in *
      end;
      match goal with
      | |- context [response ?w] => destruct (response w) as [|[payload|]]
      end;
      cbn [truthy];
      try match goal with
      | |- context [String.eqb ?s EmptyString] =>
          destruct (String.eqb s EmptyString) eqn:?
      end;
      cbn [negb];
      try match goal with
      | |- context [isCartoonMode a1] => destruct (isCartoonMode a1) eqn:?
      end;
      unfold verifyImageMatch;
      try match goal with
      | |- context [verdict ?w] => destruct (verdict w) as [|[|]]
      end ].

Lemma attempts_bounded (remaining attempt : nat) (world : World) (a : App) :
  bounded a -> bounded (fst (attempts remaining attempt world a)).
Proof.
  revert attempt a.
  induction remaining as [|remaining IH]; intros attempt a H; [assumption|].
  one_pass a1; cbn [fst]; auto 6 with app;
    try (apply IH); unfold a1; auto 8 with app.
Qed.

Lemma generateSingleView_bounded (isRegen : bool) (world : World) (a : App) :
  bounded a -> bounded (fst (generateSingleView isRegen world a)).
Proof.
  intros H. unfold generateSingleView.
  pose proof (attempts_bounded MAX_ATTEMPTS 1 world
                (_updateUIState Loading isRegen a)) as Hb.
  destruct (attempts MAX_ATTEMPTS 1 world (_updateUIState Loading isRegen a))
    as [a1 [r|ok data]]; cbn [fst] in *.
  - auto with app.
  - specialize (Hb (_updateUIState_bounded _ _ _ H)).
    destruct ok.
    + apply _updateUIState_bounded. destruct Hb as (? & ? & ?).
      now repeat split.
    + destruct isRegen; cbn [negb]; [auto with app|].
      pose proof (_updateUIState_bounded Failure false a1 Hb) as (? & ? & ?).
      now repeat split.
Qed.

Lemma startGenerationProcess_bounded (world : World) (a : App) :
  bounded a -> bounded (startGenerationProcess world a).
Proof.
  intros H. unfold startGenerationProcess.
  destruct (negb (truthy (uploadedBase64Image a))); [now apply emit_bounded|].
  apply generateSingleView_bounded. destruct H as (? & ? & ?).
  now repeat split.
Qed.

Lemma limitReached_false (a : App) :
  limitReached a = false <->
  Z.of_nat (List.length (generationTimestamps a)) < RATE_LIMIT_MAX_GENERATIONS.
Proof. unfold limitReached. rewrite Z.leb_gt. tauto. Qed.

Lemma limitReached_true (a : App) :
  limitReached a = true <->
  RATE_LIMIT_MAX_GENERATIONS <= Z.of_nat (List.length (generationTimestamps a)).
Proof. unfold limitReached. rewrite Z.leb_le. tauto. Qed.

Lemma push_within_limit (log : list JSValue) (v : JSValue) :
  Z.of_nat (List.length log) < RATE_LIMIT_MAX_GENERATIONS ->
  within_limit (log ++ [v]).
Proof.
  unfold within_limit. rewrite length_app. cbn. lia.
Qed.

Lemma handleGenerationClick_bounded (type : GenerationType)
      (now_load now_push : Z) (world : World) (a : App) :
  bounded a -> bounded (handleGenerationClick type now_load now_push world a).
Proof.
  intros H. unfold handleGenerationClick.
  pose proof (load_bounded now_load a H) as Hl.
  destruct (limitReached (loadRateLimitData now_load a)) eqn:E.
  - now apply emit_bounded.
  - apply limitReached_false in E.
    assert (Hs : bounded
                  (saveTimestamps
                     (set_generationTimestamps
                        (generationTimestamps (loadRateLimitData now_load a)
                           ++ [JNumber now_push])
                        (loadRateLimitData now_load a)))).
    { apply saveTimestamps_bounded.
      - now apply push_within_limit.
      - now destruct Hl as (? & ? & ?). }
    destruct type.
    + now apply startGenerationProcess_bounded.
    + now apply generateSingleView_bounded.
Qed.

Lemma dispatch_bounded (e : Event) (a : App) :
  bounded a -> bounded (dispatch e a).
Proof.
  destruct e; cbn [dispatch]; intros H.
  - now apply run_callback_bounded.
  - now apply handleGenerationClick_bounded.
Qed.

Lemma run_bounded (es : list Event) (a : App) :
  bounded a -> bounded (run es a).
Proof.
  revert a. induction es as [|e es IH]; intros a H; cbn; [assumption|].
  apply IH. now apply dispatch_bounded.
Qed.

Lemma constructor_bounded (now : Z) (stored : StoredData) :
  stored_within_limit stored -> bounded (constructor now stored).
Proof.
  intros H. apply load_bounded. repeat split; cbn.
  - apply within_limit_nil.
  - exact H.
  - constructor.
Qed.

(** ** What a session adds to the trace *)

Lemma calls_app (m : Model) (l1 l2 : list Effect) :
  calls m (l1 ++ l2) = (calls m l1 + calls m l2)%nat.
Proof. unfold calls. now rewrite filter_app, length_app. Qed.

Lemma handleFile_effects (file : option File) (a : App) :
  exists added, effects (handleFile file a) = effects a ++ added /\
                forall m, calls m added = O.
Proof.
  unfold handleFile. destruct file as [f|].
  - destruct (String.prefix "image/" (type f)).
    + exists []. rewrite app_nil_r. split; [|reflexivity].
      destruct (negb (String.eqb (result f) EmptyString)); [|reflexivity].
      destruct (includes comma (result f)); reflexivity.
    + exists [alert InvalidFile]. split; [reflexivity|]. now intros [].
  - exists []. now rewrite app_nil_r.
Qed.

Lemma run_callback_effects (c : Callback) (a : App) :
  exists added, effects (run_callback c a) = effects a ++ added /\
                forall m, calls m added = O.
Proof.
  destruct c; cbn [run_callback].
  - exists []. now rewrite app_nil_r.
  - exists []. now rewrite app_nil_r.
  - exists [updateUIState Idle false]. split; [reflexivity|]. now intros [].
  - apply handleFile_effects.
  - eexists. split; [apply load_effects|]. now intros [].
Qed.

Lemma run_callbacks_effects (cs : list Callback) (a : App) :
  exists added, effects (run_callbacks cs a) = effects a ++ added /\
                forall m, calls m added = O.
Proof.
  revert a. induction cs as [|c cs IH]; intros a; cbn.
  - exists []. now rewrite app_nil_r.
  - destruct (run_callback_effects c a) as (l1 & E1 & C1).
    destruct (IH (run_callback c a)) as (l2 & E2 & C2).
    exists (l1 ++ l2). split.
    + fold (run_callbacks cs (run_callback c a)).
      now rewrite E2, E1, app_assoc.
    + intros m. now rewrite calls_app, C1, C2.
Qed.

Lemma run_callbacks_keeps_cartoon (cs : list Callback) (a : App) :
  forallb keeps_cartoon cs = true ->
  isCartoonMode a = true ->
  isCartoonMode (run_callbacks cs a) = true.
Proof.
  revert a. induction cs as [|c cs IH]; intros a Hcs Ha; cbn; [assumption|].
  cbn in Hcs. apply andb_prop in Hcs as [Hc Hcs].
  apply IH; [assumption|].
  destruct c; cbn in *; try assumption; try discriminate.
  unfold handleFile. destruct file as [f|]; [|assumption].
  destruct (String.prefix "image/" (type f)); [|assumption].
  destruct (negb (String.eqb (result f) EmptyString)); [|assumption].
  destruct (includes comma (result f)); assumption.
Qed.

(** The loop issues at most one generation call per pass, and no
    verification call while the cartoon flag stays set. *)
Lemma attempts_effects (remaining attempt : nat) (world : World) (a : App) :
  exists added,
    effects (fst (attempts remaining attempt world a)) = effects a ++ added /\
    (calls gemini_flash_image added <= remaining)%nat /\
    (isCartoonMode a = true ->
     (forall k, forallb keeps_cartoon (while_generating (world k)) = true) ->
     calls gemini_flash added = O).
Proof.
  revert attempt a.
  induction remaining as [|remaining IH]; intros attempt a.
  { exists []. cbn. rewrite app_nil_r. auto. }
  destruct (run_callbacks_effects (while_generating (world attempt))
              (emit (generateContent gemini_flash_image) a)) as (g & Eg & Cg).
  assert (Hcartoon :
    isCartoonMode a = true ->
    (forall k, forallb keeps_cartoon (while_generating (world k)) = true) ->
    isCartoonMode (run_callbacks (while_generating (world attempt))
                     (emit (generateContent gemini_flash_image) a)) = true).
  { intros Ha Hw. now apply run_callbacks_keeps_cartoon. }
  destruct (run_callbacks_effects (while_verifying (world attempt))
              (emit (generateContent gemini_flash)
                 (run_callbacks (while_generating (world attempt))
                    (emit (generateContent gemini_flash_image) a))))
    as (v & Ev & Cv).
  cbn [emit effects] in Eg, Ev. rewrite Eg in Ev.
  one_pass a1; cbn [fst].
  (* cancelled *)
  - exists [updateUIState Terminating false]. cbn. repeat split; auto. lia.
  (* the call rejects *)
  - destruct (IH (S attempt) a1) as (r & Er & Cr & Kr).
    exists (([generateContent gemini_flash_image] ++ g) ++ r). repeat split.
    + rewrite Er, Eg. now rewrite <- !app_assoc.
    + rewrite !calls_app, Cg. cbn. lia.
    + intros Ha Hw. rewrite !calls_app, Cg. cbn. apply Kr; auto.
  (* no payload: an empty string *)
  - destruct (IH (S attempt) a1) as (r & Er & Cr & Kr).
    exists (([generateContent gemini_flash_image] ++ g) ++ r). repeat split.
    + rewrite Er, Eg. now rewrite <- !app_assoc.
    + rewrite !calls_app, Cg. cbn. lia.
    + intros Ha Hw. rewrite !calls_app, Cg. cbn. apply Kr; auto.
  (* a payload, cartoon mode *)
  - exists ([generateContent gemini_flash_image] ++ g). repeat split.
    + rewrite Eg. now rewrite <- !app_assoc.
    + rewrite !calls_app, Cg. cbn. lia.
    + intros Ha Hw. now rewrite !calls_app, Cg.
  (* a payload, verification rejects *)
  - destruct (IH (S attempt)
                (run_callbacks (while_verifying (world attempt))
                   (emit (generateContent gemini_flash) a1)))
      as (r & Er & Cr & Kr).
    exists ((([generateContent gemini_flash_image] ++ g)
               ++ [generateContent gemini_flash] ++ v) ++ r). repeat split.
    + rewrite Er, Ev. now rewrite <- !app_assoc.
    + rewrite !calls_app, Cg, Cv. cbn. lia.
    + intros Ha Hw. specialize (Hcartoon Ha Hw). congruence.
  (* a payload, verified *)
  - exists (([generateContent gemini_flash_image] ++ g)
              ++ [generateContent gemini_flash] ++ v). repeat split.
    + rewrite Ev. now rewrite <- !app_assoc.
    + rewrite !calls_app, Cg, Cv. cbn. lia.
    + intros Ha Hw. specialize (Hcartoon Ha Hw). congruence.
  (* a payload, not verified *)
  - destruct (IH (S attempt)
                (run_callbacks (while_verifying (world attempt))
                   (emit (generateContent gemini_flash) a1)))
      as (r & Er & Cr & Kr).
    exists ((([generateContent gemini_flash_image] ++ g)
               ++ [generateContent gemini_flash] ++ v) ++ r). repeat split.
    + rewrite Er, Ev. now rewrite <- !app_assoc.
    + rewrite !calls_app, Cg, Cv. cbn. lia.
    + intros Ha Hw. specialize (Hcartoon Ha Hw). congruence.
  (* no payload: null *)
  - destruct (IH (S attempt) a1) as (r & Er & Cr & Kr).
    exists (([generateContent gemini_flash_image] ++ g) ++ r). repeat split.
    + rewrite Er, Eg. now rewrite <- !app_assoc.
    + rewrite !calls_app, Cg. cbn. lia.
    + intros Ha Hw. rewrite !calls_app, Cg. cbn. apply Kr; auto.
Qed.

(** ** The retry loop *)

Lemma attempts_exit (remaining attempt : nat) (world : World) (a : App) :
  well_shaped_exit (snd (attempts remaining attempt world a)).
Proof.
  revert attempt a.
  induction remaining as [|remaining IH]; intros attempt a; [exact I|].
  one_pass a1; cbn [snd well_shaped_exit]; auto.
  - intros ->. discriminate.
  - intros ->. discriminate.
Qed.

Lemma extends_same (a a' : App) : effects a' = effects a -> extends a a'.
Proof. intros H. exists []. now rewrite app_nil_r. Qed.

Lemma extends_trans (a b c : App) : extends a b -> extends b c -> extends a c.
Proof.
  intros (l1 & E1) (l2 & E2). exists (l1 ++ l2).
  now rewrite E2, E1, app_assoc.
Qed.

Lemma extends_emit (e : Effect) (a : App) : extends a (emit e a).
Proof. now exists [e]. Qed.

Lemma run_callbacks_extends (cs : list Callback) (a : App) :
  extends a (run_callbacks cs a).
Proof. destruct (run_callbacks_effects cs a) as (l & E & _). now exists l. Qed.

Lemma attempts_extends (remaining attempt : nat) (world : World) (a : App) :
  extends a (fst (attempts remaining attempt world a)).
Proof.
  destruct (attempts_effects remaining attempt world a) as (l & E & _).
  now exists l.
Qed.

#[local] Hint Resolve extends_emit run_callbacks_extends attempts_extends : app.

Lemma generateSingleView_extends (isRegen : bool) (world : World) (a : App) :
  extends a (fst (generateSingleView isRegen world a)).
Proof.
  unfold generateSingleView.
  pose proof (attempts_extends MAX_ATTEMPTS 1 world
                (_updateUIState Loading isRegen a)) as H.
  assert (H0 : extends a (_updateUIState Loading isRegen a))
    by (eexists; reflexivity).
  destruct (attempts MAX_ATTEMPTS 1 world (_updateUIState Loading isRegen a))
    as [a1 [r|ok data]]; cbn [fst] in *.
  - now apply (extends_trans _ _ _ H0).
  - apply (extends_trans _ _ _ H0), (extends_trans _ _ _ H).
    destruct ok; [|destruct isRegen]; eexists; reflexivity.
Qed.

(** C5.  One run of [generateSingleView] appends to the trace at most
    [MAX_ATTEMPTS] = 5 calls to the generation model, and, when cartoon mode
    is on at the start and no listener running during the run switches it
    off, not a single call to the verification model. *)
Theorem retry_loop_call_budget (isRegeneration : bool) (world : World) (a : App) :
  exists issued,
    effects (fst (generateSingleView isRegeneration world a))
    = effects a ++ issued /\
    (calls gemini_flash_image issued <= MAX_ATTEMPTS)%nat /\
    (isCartoonMode a = true ->
     (forall k, forallb keeps_cartoon (while_generating (world k)) = true) ->
     calls gemini_flash issued = O).
Proof.
  unfold generateSingleView.
  destruct (attempts_effects MAX_ATTEMPTS 1 world
              (_updateUIState Loading isRegeneration a)) as (added & E & C & K).
  destruct (attempts MAX_ATTEMPTS 1 world
              (_updateUIState Loading isRegeneration a)) as [a1 [r|ok data]];
    cbn [fst] in *.
  - exists ([updateUIState Loading isRegeneration] ++ added). repeat split.
    + rewrite E. cbn. now rewrite <- app_assoc.
    + now rewrite calls_app.
    + intros Ha Hw. rewrite calls_app. now apply K.
  - exists (([updateUIState Loading isRegeneration] ++ added)
              ++ [updateUIState (if ok then Success else Failure)
                                (if ok then false else isRegeneration)]).
    repeat split.
    + destruct ok; [|destruct isRegeneration]; cbn; rewrite E; cbn;
        now rewrite <- !app_assoc.
    + rewrite !calls_app. destruct ok; cbn; cbn in C; lia.
    + intros Ha Hw. rewrite !calls_app, (K Ha Hw). now destruct ok.
Qed.

Lemma retry_loop_call_budget_witness :
  let world : World :=
    fun _ => mkAttempt [terminate_click] (generate_resolves (Some "AAAA"%string))
                       [] (verify_resolves false) in
  let a := mkApp (Some "QUJD"%string) 0 None false true [] Null Idle [] in
  exists issued,
    effects (fst (generateSingleView false world a)) = effects a ++ issued /\
    (calls gemini_flash_image issued <= MAX_ATTEMPTS)%nat /\
    calls gemini_flash issued = O.
Proof.
  intros world a.
  destruct (retry_loop_call_budget false world a) as (issued & E & C & K).
  exists issued. repeat split; [exact E | exact C |].
  apply K; [reflexivity | intros k; reflexivity].
Defined.

(** C6.  When [isGenerationTerminated] is set on entry, [generateSingleView]
    returns {success: false, base64Data: null, terminated: true}; all it does
    is switch the status to loading and then to terminating, so it calls
    neither the generation model nor the verification model. *)
Theorem cancelled_before_first_attempt (isRegeneration : bool) (world : World)
        (a : App) :
  isGenerationTerminated a = true ->
  snd (generateSingleView isRegeneration world a) = mkResult false None true /\
  effects (fst (generateSingleView isRegeneration world a))
  = effects a ++ [updateUIState Loading isRegeneration;
                  updateUIState Terminating false] /\
  calls gemini_flash_image
    [updateUIState Loading isRegeneration; updateUIState Terminating false] = O /\
  calls gemini_flash
    [updateUIState Loading isRegeneration; updateUIState Terminating false] = O.
Proof.
  intros H. unfold generateSingleView. cbn [MAX_ATTEMPTS attempts].
  change (isGenerationTerminated (_updateUIState Loading isRegeneration a))
    with (isGenerationTerminated a).
  rewrite H. cbn. rewrite <- app_assoc. auto.
Qed.

Lemma cancelled_before_first_attempt_witness :
  let world : World :=
    fun _ => mkAttempt [] (generate_resolves (Some "AAAA"%string))
                       [] (verify_resolves true) in
  let a := mkApp (Some "QUJD"%string) 0 None true false [] Null Idle [] in
  snd (generateSingleView true world a) = mkResult false None true /\
  effects (fst (generateSingleView true world a))
  = effects a ++ [updateUIState Loading true; updateUIState Terminating false] /\
  calls gemini_flash_image
    [updateUIState Loading true; updateUIState Terminating false] = O /\
  calls gemini_flash
    [updateUIState Loading true; updateUIState Terminating false] = O.
Proof.
  intros world a. apply (cancelled_before_first_attempt true world a).
  reflexivity.
Defined.

(** C10.  The record [generateSingleView] returns has one of three shapes:
    terminated (success false, base64Data null), rejected (all three false
    or null), or success with a non-empty payload and terminated false.  So
    terminated implies no success and no payload, and success holds exactly
    when base64Data is a non-null, non-empty payload. *)
Theorem result_shape (isRegeneration : bool) (world : World) (a : App) :
  let r := snd (generateSingleView isRegeneration world a) in
  (terminated r = true -> success r = false /\ base64Data r = None) /\
  (success r = true <->
   exists payload, base64Data r = Some payload /\ payload <> EmptyString) /\
  (r = mkResult false None true \/
   r = mkResult false None false \/
   exists payload, payload <> EmptyString /\
                   r = mkResult true (Some payload) false).
Proof.
  unfold generateSingleView.
  pose proof (attempts_exit MAX_ATTEMPTS 1 world
                (_updateUIState Loading isRegeneration a)) as H.
  destruct (attempts MAX_ATTEMPTS 1 world
              (_updateUIState Loading isRegeneration a))
    as [a1 [r|[|] [payload|]]]; cbn [snd well_shaped_exit] in *;
    try contradiction.
  - subst r. cbn. repeat split; auto; try discriminate.
    intros (p & Hp & _). discriminate.
  - cbn. repeat split; try discriminate; eauto.
  - cbn. repeat split; auto; try discriminate.
    intros (p & Hp & _). discriminate.
Qed.

(** ** A session leaves the log alone unless the countdown reloads it *)

Lemma same_log_refl (a : App) : same_log a a.
Proof. split; reflexivity. Qed.

Lemma same_log_trans (a b c : App) : same_log a b -> same_log b c -> same_log a c.
Proof. intros [H1 H2] [H3 H4]. split; congruence. Qed.

Lemma run_callback_same_log (c : Callback) (a : App) :
  no_reload c = true -> same_log a (run_callback c a).
Proof.
  destruct c as [|checked| |file|now]; cbn; intros H;
    try discriminate; try (split; reflexivity).
  unfold handleFile. destruct file as [f|]; [|apply same_log_refl].
  destruct (String.prefix "image/" (type f)); [|split; reflexivity].
  destruct (negb (String.eqb (result f) EmptyString)); [|apply same_log_refl].
  destruct (includes comma (result f)); split; reflexivity.
Qed.

Lemma run_callbacks_same_log (cs : list Callback) (a : App) :
  forallb no_reload cs = true -> same_log a (run_callbacks cs a).
Proof.
  revert a. induction cs as [|c cs IH]; intros a H; cbn; [apply same_log_refl|].
  cbn in H. apply andb_prop in H as [Hc Hcs].
  eapply same_log_trans; [apply run_callback_same_log, Hc | now apply IH].
Qed.

Lemma attempts_same_log (remaining attempt : nat) (world : World) (a : App) :
  quiet no_reload world -> same_log a (fst (attempts remaining attempt world a)).
Proof.
  intros Hw. revert attempt a.
  induction remaining as [|remaining IH]; intros attempt a; [apply same_log_refl|].
  destruct (Hw attempt) as [Hg Hv].
  pose proof (run_callbacks_same_log _
                (emit (generateContent gemini_flash_image) a) Hg) as H1.
  pose proof (run_callbacks_same_log _
                (emit (generateContent gemini_flash)
                   (run_callbacks (while_generating (world attempt))
                      (emit (generateContent gemini_flash_image) a))) Hv) as H2.
  pose proof (IH (S attempt)
                (run_callbacks (while_generating (world attempt))
                   (emit (generateContent gemini_flash_image) a))) as H3.
  pose proof (IH (S attempt)
                (run_callbacks (while_verifying (world attempt))
                   (emit (generateContent gemini_flash)
                      (run_callbacks (while_generating (world attempt))
                         (emit (generateContent gemini_flash_image) a))))) as H4.
  unfold same_log in *.
  cbn [emit generationTimestamps localStorage] in H1, H2.
  destruct H1, H2, H3, H4.
  one_pass a1; cbn [fst]; split; try reflexivity; congruence.
Qed.

Lemma generateSingleView_same_log (isRegen : bool) (world : World) (a : App) :
  quiet no_reload world -> same_log a (fst (generateSingleView isRegen world a)).
Proof.
  intros Hw. unfold generateSingleView.
  pose proof (attempts_same_log MAX_ATTEMPTS 1 world
                (_updateUIState Loading isRegen a) Hw) as H.
  destruct (attempts MAX_ATTEMPTS 1 world (_updateUIState Loading isRegen a))
    as [a1 [r|ok data]]; cbn [fst] in *.
  - exact H.
  - destruct ok; [|destruct isRegen]; exact H.
Qed.

Lemma startGenerationProcess_same_log (world : World) (a : App) :
  quiet no_reload world -> same_log a (startGenerationProcess world a).
Proof.
  intros Hw. unfold startGenerationProcess.
  destruct (negb (truthy (uploadedBase64Image a))); [split; reflexivity|].
  apply (generateSingleView_same_log false world
           (set_successfulImageData None
              (set_failureCount 0 (set_isGenerationTerminated false a))) Hw).
Qed.

Lemma startGenerationProcess_effects (world : World) (a : App) :
  exists session, effects (startGenerationProcess world a) = effects a ++ session.
Proof.
  unfold startGenerationProcess.
  destruct (negb (truthy (uploadedBase64Image a))).
  - now exists [alert UploadFirst].
  - apply (generateSingleView_extends false world
             (set_successfulImageData None
                (set_failureCount 0 (set_isGenerationTerminated false a)))).
Qed.

(** ** The click on generate or regenerate *)

(** The state in which an admitted click starts its session. *)
Lemma admitted_click (type : GenerationType) (now_load now_push : Z)
      (world : World) (a : App) :
  limitReached (loadRateLimitData now_load a) = false ->
  exists admitted,
    generationTimestamps admitted
    = generationTimestamps (loadRateLimitData now_load a) ++ [JNumber now_push] /\
    localStorage admitted = JSON_stringify (generationTimestamps admitted) /\
    effects admitted
    = effects a ++ [setItem (generationTimestamps (loadRateLimitData now_load a));
                    setItem (generationTimestamps admitted)] /\
    uploadedBase64Image admitted = uploadedBase64Image a /\
    failureCount admitted = failureCount a /\
    isGenerationTerminated admitted = isGenerationTerminated a /\
    handleGenerationClick type now_load now_push world a
    = match type with
      | generate => startGenerationProcess world admitted
      | regenerate => fst (generateSingleView true world admitted)
      end.
Proof.
  intros H. unfold handleGenerationClick. rewrite H.
  exists (saveTimestamps
            (set_generationTimestamps
               (generationTimestamps (loadRateLimitData now_load a)
                  ++ [JNumber now_push])
               (loadRateLimitData now_load a))).
  repeat split; try reflexivity.
  cbn [saveTimestamps emit set_localStorage set_generationTimestamps effects
       generationTimestamps].
  rewrite load_effects, <- app_assoc. reflexivity.
Qed.

Lemma denied_click (type : GenerationType) (now_load now_push : Z)
      (world : World) (a : App) :
  limitReached (loadRateLimitData now_load a) = true ->
  handleGenerationClick type now_load now_push world a
  = emit (alert LimitReached) (loadRateLimitData now_load a).
Proof. intros H. unfold handleGenerationClick. now rewrite H. Qed.

Lemma admitted_click_effects (type : GenerationType) (now_load now_push : Z)
      (world : World) (a : App) :
  limitReached (loadRateLimitData now_load a) = false ->
  exists session,
    effects (handleGenerationClick type now_load now_push world a)
    = effects a
      ++ setItem (generationTimestamps (loadRateLimitData now_load a))
      :: setItem (generationTimestamps (loadRateLimitData now_load a)
                    ++ [JNumber now_push])
      :: session.
Proof.
  intros H.
  destruct (admitted_click type now_load now_push world a H)
    as (admitted & Hlog & _ & Heff & _ & _ & _ & Hclick).
  rewrite Hlog in Heff. rewrite Hclick. destruct type.
  - destruct (startGenerationProcess_effects world admitted) as (s & E).
    exists s. rewrite E, Heff, <- app_assoc. reflexivity.
  - destruct (generateSingleView_extends true world admitted) as (s & E).
    exists s. rewrite E, Heff, <- app_assoc. reflexivity.
Qed.

Lemma denied_click_effects (type : GenerationType) (now_load now_push : Z)
      (world : World) (a : App) :
  limitReached (loadRateLimitData now_load a) = true ->
  effects (handleGenerationClick type now_load now_push world a)
  = effects a ++ [setItem (generationTimestamps (loadRateLimitData now_load a));
                  alert LimitReached].
Proof.
  intros H. rewrite (denied_click _ _ _ _ _ H).
  cbn [emit effects]. rewrite load_effects, <- app_assoc. reflexivity.
Qed.

(** C3.  When the click is denied (the pruned log holds [MAX] entries or
    more), the only thing it does after the load is the alert: the log in
    memory and in the store is the pruned one, the status and the other
    fields are as before the click, and the trace gained the load's
    [setItem] and then the alert, with no generation call and no further
    [setItem]. *)
Theorem denied_click_changes_nothing (type : GenerationType)
        (now_load now_push : Z) (world : World) (a : App) :
  let loaded := loadRateLimitData now_load a in
  RATE_LIMIT_MAX_GENERATIONS
  <= Z.of_nat (List.length (generationTimestamps loaded)) ->
  let a' := handleGenerationClick type now_load now_push world a in
  a' = emit (alert LimitReached) loaded /\
  generationTimestamps a' = generationTimestamps loaded /\
  localStorage a' = JSON_stringify (generationTimestamps loaded) /\
  uiState a' = uiState a /\
  failureCount a' = failureCount a /\
  successfulImageData a' = successfulImageData a /\
  isGenerationTerminated a' = isGenerationTerminated a /\
  effects a'
  = effects a ++ [setItem (generationTimestamps loaded); alert LimitReached].
Proof.
  intros loaded H a'. apply limitReached_true in H.
  pose proof (denied_click_effects type now_load now_push world a H) as Heff.
  unfold a'. rewrite (denied_click _ _ _ _ _ H) in *. fold loaded.
  repeat split. exact Heff.
Qed.

Lemma denied_click_changes_nothing_witness :
  let log := map JNumber [0; 60000; 120000; 180000; 240000] in
  let a := mkApp (Some "QUJD"%string) 0 None false false log
                 (JSON_stringify log) Success [] in
  let a' := handleGenerationClick regenerate 300000 300001 (fun _ =>
              mkAttempt [] (generate_resolves (Some "AAAA"%string)) []
                        (verify_resolves true)) a in
  generationTimestamps a' = log /\
  uiState a' = Success /\
  effects a' = [setItem log; alert LimitReached].
Proof.
  intros log a.
  pose proof (denied_click_changes_nothing regenerate 300000 300001 (fun _ =>
              mkAttempt [] (generate_resolves (Some "AAAA"%string)) []
                        (verify_resolves true)) a) as H.
  cbv zeta in H.
  destruct H as (_ & Hlog & _ & Hui & _ & _ & _ & Heff).
  - vm_compute. discriminate.
  - split; [exact Hlog | split; [exact Hui | exact Heff]].
Defined.

(** C4.  When the click is admitted, the first things it adds to the trace
    are the load's [setItem] and then the [setItem] of the pruned log with
    the new timestamp appended; every call to a remote model made on behalf
    of this click comes after them.  Unless the countdown reloads the log
    while the session runs, the log in memory and in the store still ends
    with that timestamp when the session is over, whatever the remote
    calls answered. *)
Theorem timestamp_persisted_before_generation (type : GenerationType)
        (now_load now_push : Z) (world : World) (a : App) :
  let pruned := generationTimestamps (loadRateLimitData now_load a) in
  Z.of_nat (List.length pruned) < RATE_LIMIT_MAX_GENERATIONS ->
  let a' := handleGenerationClick type now_load now_push world a in
  (exists session,
      effects a'
      = effects a ++ setItem pruned
                  :: setItem (pruned ++ [JNumber now_push]) :: session) /\
  (quiet no_reload world ->
   generationTimestamps a' = pruned ++ [JNumber now_push] /\
   localStorage a' = JSON_stringify (pruned ++ [JNumber now_push])).
Proof.
  intros pruned H a'. apply limitReached_false in H.
  destruct (admitted_click type now_load now_push world a H)
    as (admitted & Hlog & Hst & Heff & _ & _ & _ & Hclick).
  fold pruned in Hlog, Heff. rewrite Hlog in Hst, Heff.
  split; [apply (admitted_click_effects type now_load now_push world a H)|].
  unfold a'. rewrite Hclick.
  intros Hw. destruct type.
    + destruct (startGenerationProcess_same_log world admitted Hw) as [E1 E2].
      split; congruence.
    + destruct (generateSingleView_same_log true world admitted Hw) as [E1 E2].
      split; congruence.
Qed.

Lemma timestamp_persisted_before_generation_witness :
  let world : World := fun _ => mkAttempt [] generate_rejects [] verify_rejects in
  let a := mkApp (Some "QUJD"%string) 0 None false false []
                 (JSON_stringify [JNumber 0]) Idle [] in
  let a' := handleGenerationClick generate 60000 60001 world a in
  (exists session,
      effects a'
      = setItem [JNumber 0] :: setItem [JNumber 0; JNumber 60001] :: session) /\
  localStorage a' = JSON_stringify [JNumber 0; JNumber 60001].
Proof.
  intros world a.
  pose proof (timestamp_persisted_before_generation generate 60000 60001 world a)
    as H.
  cbv zeta in H. destruct H as (Hs & Hq).
  - vm_compute. reflexivity.
  - split; [exact Hs|]. apply Hq. intros k. split; reflexivity.
Defined.



(** The scenarios of the specification: an empty log at time 0 admits and
    becomes [0]; five entries at 5 minutes are all in the window and the
    click is denied; at 10 minutes 10 seconds the entry 0 has expired and a
    fifth entry is admitted. *)
Example scenario_A :
  generationTimestamps
    (handleGenerationClick generate 0 0
       (fun _ => mkAttempt [] generate_rejects [] verify_rejects)
       (constructor 0 Null))
  = [JNumber 0].
Proof. reflexivity. Qed.

Example scenario_B :
  let log := map JNumber [0; 60000; 120000; 180000; 240000] in
  let a' := handleGenerationClick generate 300000 300000
              (fun _ => mkAttempt [] generate_rejects [] verify_rejects)
              (constructor 300000 (JSON_stringify log)) in
  generationTimestamps a' = log /\
  effects a' = [setItem log; setItem log; alert LimitReached].
Proof. split; reflexivity. Qed.

Example scenario_C :
  let log := map JNumber [0; 60000; 120000; 180000; 240000] in
  generationTimestamps
    (handleGenerationClick generate 610000 610000
       (fun _ => mkAttempt [] generate_rejects [] verify_rejects)
       (constructor 300000 (JSON_stringify log)))
  = map JNumber [60000; 120000; 180000; 240000; 610000].
Proof. reflexivity. Qed.

(** ** The cancellation flag across sessions *)

(** With the flag unset, the first pass of the loop calls the generator. *)
Lemma attempts_first_call (remaining attempt : nat) (world : World) (a : App) :
  isGenerationTerminated a = false ->
  extends (emit (generateContent gemini_flash_image) a)
          (fst (attempts (S remaining) attempt world a)).
Proof.
  intros H. cbn [attempts]. rewrite H.
  assert (H1 := run_callbacks_extends (while_generating (world attempt))
                  (emit (generateContent gemini_flash_image) a)).
  set (a1 := run_callbacks _ _) in *.
  assert (H2 : extends a1 (run_callbacks (while_verifying (world attempt))
                             (emit (generateContent gemini_flash) a1))).
  { eapply extends_trans; [apply extends_emit | apply run_callbacks_extends]. }
  destruct (response (world attempt)) as [|payload].
  - eapply extends_trans; [exact H1 | apply attempts_extends].
  - destruct (truthy payload).
    + destruct (isCartoonMode a1); [exact H1|].
      unfold verifyImageMatch.
      destruct (verdict (world attempt)) as [|[|]]; cbn [fst].
      * eapply extends_trans; [exact H1|].
        eapply extends_trans; [exact H2 | apply attempts_extends].
      * eapply extends_trans; [exact H1 | exact H2].
      * eapply extends_trans; [exact H1|].
        eapply extends_trans; [exact H2 | apply attempts_extends].
    + eapply extends_trans; [exact H1 | apply attempts_extends].
Qed.

Lemma generateSingleView_first_call (isRegen : bool) (world : World) (a : App) :
  isGenerationTerminated a = false ->
  exists rest,
    effects (fst (generateSingleView isRegen world a))
    = effects a ++ updateUIState Loading isRegen
                :: generateContent gemini_flash_image :: rest.
Proof.
  intros H. unfold generateSingleView. unfold MAX_ATTEMPTS.
  destruct (attempts_first_call 4 1 world (_updateUIState Loading isRegen a) H)
    as (l & E).
  cbn [emit _updateUIState effects set_uiState] in E.
  rewrite <- !app_assoc in E. cbn [app] in E.
  destruct (attempts 5 1 world (_updateUIState Loading isRegen a))
    as [a1 [r|ok data]]; cbn [fst] in *.
  - now exists l.
  - destruct ok; [|destruct isRegen]; cbn; rewrite E, <- !app_assoc; cbn;
      eexists; reflexivity.
Qed.

(** A generate click with a photo uploaded always makes its first attempt:
    [startGenerationProcess] clears the flag before the loop starts. *)
Lemma generate_clears_cancellation (now_load now_push : Z) (world : World)
      (a : App) :
  limitReached (loadRateLimitData now_load a) = false ->
  truthy (uploadedBase64Image a) = true ->
  exists rest,
    effects (handleGenerationClick generate now_load now_push world a)
    = effects a
      ++ setItem (generationTimestamps (loadRateLimitData now_load a))
      :: setItem (generationTimestamps (loadRateLimitData now_load a)
                    ++ [JNumber now_push])
      :: updateUIState Loading false
      :: generateContent gemini_flash_image
      :: rest.
Proof.
  intros H Hup.
  destruct (admitted_click generate now_load now_push world a H)
    as (admitted & Hlog & _ & Heff & Hup' & _ & _ & Hclick).
  rewrite Hlog in Heff. rewrite Hclick.
  unfold startGenerationProcess. rewrite Hup', Hup. cbn [negb].
  destruct (generateSingleView_first_call false world
              (set_successfulImageData None
                 (set_failureCount 0 (set_isGenerationTerminated false admitted)))
              eq_refl) as (rest & E).
  exists rest. rewrite E. cbn [effects set_successfulImageData set_failureCount
                              set_isGenerationTerminated].
  rewrite Heff, <- app_assoc. reflexivity.
Qed.

(** C7, on the regenerate path.  A regenerate click goes straight to
    [generateSingleView], which does not clear [isGenerationTerminated]: if
    the flag is still set from an earlier session, the admitted click spends
    an entry of the quota, switches the status to loading and at once to
    terminating, and never calls the generator. *)
Theorem regenerate_keeps_stale_cancellation (now_load now_push : Z)
        (world : World) (a : App) :
  isGenerationTerminated a = true ->
  limitReached (loadRateLimitData now_load a) = false ->
  let pruned := generationTimestamps (loadRateLimitData now_load a) in
  let a' := handleGenerationClick regenerate now_load now_push world a in
  effects a'
  = effects a ++ [setItem pruned;
                  setItem (pruned ++ [JNumber now_push]);
                  updateUIState Loading true;
                  updateUIState Terminating false] /\
  uiState a' = Terminating /\
  isGenerationTerminated a' = true /\
  localStorage a' = JSON_stringify (pruned ++ [JNumber now_push]).
Proof.
  intros Hflag H pruned a'.
  destruct (admitted_click regenerate now_load now_push world a H)
    as (admitted & Hlog & Hst & Heff & _ & _ & Hflag' & Hclick).
  fold pruned in Hlog, Heff. rewrite Hlog in Hst, Heff.
  rewrite Hflag in Hflag'.
  unfold a'. rewrite Hclick.
  unfold generateSingleView. cbn [MAX_ATTEMPTS attempts].
  change (isGenerationTerminated (_updateUIState Loading true admitted))
    with (isGenerationTerminated admitted).
  rewrite Hflag'. cbn. rewrite Heff, <- !app_assoc. auto.
Qed.

(** The stale flag is reachable: upload a photo, click generate, click
    terminate while the first call is awaited; the next regenerate click is
    admitted and terminated before its first attempt. *)
Lemma regenerate_keeps_stale_cancellation_witness :
  let photo := mkFile "image/png" "data:image/png;base64,QUJD" in
  let answers : World :=
    fun _ => mkAttempt [] (generate_resolves (Some "AAAA"%string))
                       [] (verify_resolves true) in
  let interrupted : World :=
    fun _ => mkAttempt [terminate_click] generate_rejects [] verify_rejects in
  let a := run [callback (imageInput_change (Some photo));
                generation_click generate 1000 1000 interrupted]
               (constructor 0 Null) in
  let a' := handleGenerationClick regenerate 60000 60000 answers a in
  uiState a' = Terminating /\
  effects a'
  = effects a ++ [setItem [JNumber 1000];
                  setItem [JNumber 1000; JNumber 60000];
                  updateUIState Loading true;
                  updateUIState Terminating false].
Proof.
  intros photo answers interrupted a.
  pose proof (regenerate_keeps_stale_cancellation 60000 60000 answers a) as H.
  cbv zeta in H. destruct H as (Heff & Hui & _).
  - vm_compute. reflexivity.
  - vm_compute. reflexivity.
  - split; [exact Hui | exact Heff].
Defined.

(** ** The failure counter *)

Lemma run_callback_failureCount (c : Callback) (a : App) :
  failureCount (run_callback c a)
  = if resets_counter c then 0 else failureCount a.
Proof.
  destruct c as [|checked| |file|now]; cbn; try reflexivity.
  unfold handleFile. destruct file as [f|]; [|reflexivity].
  destruct (String.prefix "image/" (type f)); [|reflexivity].
  destruct (negb (String.eqb (result f) EmptyString)); [|reflexivity].
  destruct (includes comma (result f)); reflexivity.
Qed.

Lemma run_callbacks_failureCount (cs : list Callback) (a : App) :
  forallb keeps_counter cs = true ->
  failureCount (run_callbacks cs a) = failureCount a.
Proof.
  revert a. induction cs as [|c cs IH]; intros a H; cbn; [reflexivity|].
  cbn in H. apply andb_prop in H as [Hc Hcs].
  fold (run_callbacks cs (run_callback c a)). rewrite (IH _ Hcs).
  rewrite run_callback_failureCount. unfold keeps_counter in Hc.
  now destruct (resets_counter c).
Qed.

Lemma run_callbacks_failureCount_zero (cs : list Callback) (a : App) :
  failureCount a = 0 -> failureCount (run_callbacks cs a) = 0.
Proof.
  revert a. induction cs as [|c cs IH]; intros a H; cbn; [assumption|].
  apply IH. rewrite run_callback_failureCount.
  now destruct (resets_counter c).
Qed.

Lemma attempts_failureCount (remaining attempt : nat) (world : World) (a : App) :
  quiet keeps_counter world ->
  failureCount (fst (attempts remaining attempt world a)) = failureCount a.
Proof.
  intros Hw. revert attempt a.
  induction remaining as [|remaining IH]; intros attempt a; [reflexivity|].
  destruct (Hw attempt) as [Hg Hv].
  pose proof (run_callbacks_failureCount _
                (emit (generateContent gemini_flash_image) a) Hg) as H1.
  pose proof (run_callbacks_failureCount _
                (emit (generateContent gemini_flash)
                   (run_callbacks (while_generating (world attempt))
                      (emit (generateContent gemini_flash_image) a))) Hv) as H2.
  cbn [emit failureCount] in H1, H2.
  one_pass a1; cbn [fst]; try rewrite IH; try reflexivity; congruence.
Qed.

Lemma attempts_failureCount_zero (remaining attempt : nat) (world : World)
      (a : App) :
  failureCount a = 0 ->
  failureCount (fst (attempts remaining attempt world a)) = 0.
Proof.
  revert attempt a.
  induction remaining as [|remaining IH]; intros attempt a H; [assumption|].
  pose proof (run_callbacks_failureCount_zero (while_generating (world attempt))
                (emit (generateContent gemini_flash_image) a) H) as H1.
  pose proof (run_callbacks_failureCount_zero (while_verifying (world attempt))
                (emit (generateContent gemini_flash)
                   (run_callbacks (while_generating (world attempt))
                      (emit (generateContent gemini_flash_image) a))) H1) as H2.
  one_pass a1; cbn [fst]; try apply IH; assumption.
Qed.

(** A [return] from inside the loop leaves the status on terminating. *)
Lemma attempts_returned (remaining attempt : nat) (world : World) (a : App)
      (r : GenerationResult) :
  snd (attempts remaining attempt world a) = Returned r ->
  uiState (fst (attempts remaining attempt world a)) = Terminating.
Proof.
  revert attempt a.
  induction remaining as [|remaining IH]; intros attempt a; [discriminate|].
  one_pass a1; cbn [fst snd]; try discriminate; try apply IH; reflexivity.
Qed.

(** The status a session ends on is the one its result stands for: failure
    is shown exactly when the session is neither successful nor terminated. *)
Lemma generateSingleView_status (isRegen : bool) (world : World) (a : App) :
  uiState (fst (generateSingleView isRegen world a))
  = status_of (snd (generateSingleView isRegen world a)).
Proof.
  unfold generateSingleView.
  pose proof (attempts_exit MAX_ATTEMPTS 1 world
                (_updateUIState Loading isRegen a)) as Hexit.
  pose proof (attempts_returned MAX_ATTEMPTS 1 world
                (_updateUIState Loading isRegen a)) as Hret.
  destruct (attempts MAX_ATTEMPTS 1 world (_updateUIState Loading isRegen a))
    as [a1 [r|ok data]]; cbn [fst snd well_shaped_exit] in *.
  - subst r. now rewrite (Hret _ eq_refl).
  - destruct ok; [|destruct isRegen]; reflexivity.
Qed.

Lemma generateSingleView_failureCount (isRegen : bool) (world : World)
      (a : App) :
  quiet keeps_counter world ->
  failureCount (fst (generateSingleView isRegen world a))
  = failureCount a
    + (if negb isRegen
          && is_failure (status_of (snd (generateSingleView isRegen world a)))
       then 1 else 0).
Proof.
  intros Hw. unfold generateSingleView.
  pose proof (attempts_exit MAX_ATTEMPTS 1 world
                (_updateUIState Loading isRegen a)) as Hexit.
  pose proof (attempts_failureCount MAX_ATTEMPTS 1 world
                (_updateUIState Loading isRegen a) Hw) as Hfc.
  destruct (attempts MAX_ATTEMPTS 1 world (_updateUIState Loading isRegen a))
    as [a1 [r|ok data]]; cbn [fst snd well_shaped_exit] in *.
  - subst r. cbn. rewrite Hfc, andb_false_r. cbn. lia.
  - destruct ok, isRegen; cbn; rewrite Hfc; cbn; lia.
Qed.

Lemma generateSingleView_failureCount_zero (world : World) (a : App) :
  failureCount a = 0 ->
  failureCount (fst (generateSingleView false world a))
  = if is_failure (uiState (fst (generateSingleView false world a)))
    then 1 else 0.
Proof.
  intros H. rewrite generateSingleView_status. unfold generateSingleView.
  pose proof (attempts_exit MAX_ATTEMPTS 1 world
                (_updateUIState Loading false a)) as Hexit.
  pose proof (attempts_failureCount_zero MAX_ATTEMPTS 1 world
                (_updateUIState Loading false a) H) as Hfc.
  destruct (attempts MAX_ATTEMPTS 1 world (_updateUIState Loading false a))
    as [a1 [r|ok data]]; cbn [fst snd well_shaped_exit] in *.
  - subst r. cbn. exact Hfc.
  - destruct ok; cbn; rewrite Hfc; reflexivity.
Qed.




(** ** Two runs of the retry loop from the specification *)

(** No image on attempts 1 to 4, a matching image on attempt 5, validation
    on: success after five generation calls and one verification call. *)
Example scenario_D :
  let world : World := fun k =>
    match k with
    | 5%nat => mkAttempt [] (generate_resolves (Some "AAAA"%string))
                         [] (verify_resolves true)
    | _ => mkAttempt [] (generate_resolves None) [] verify_rejects
    end in
  let a := mkApp (Some "QUJD"%string) 0 None false false [] Null Idle [] in
  let run := generateSingleView false world a in
  snd run = mkResult true (Some "AAAA"%string) false /\
  calls gemini_flash_image (effects (fst run)) = 5%nat /\
  calls gemini_flash (effects (fst run)) = 1%nat /\
  uiState (fst run) = Success.
Proof. repeat split. Qed.

(** The terminate button is clicked while attempt 2 is awaited, and attempt
    2 then fails: the run is terminated without a third generation call. *)
Example scenario_E :
  let world : World := fun k =>
    match k with
    | 2%nat => mkAttempt [terminate_click] generate_rejects [] verify_rejects
    | _ => mkAttempt [] generate_rejects [] verify_rejects
    end in
  let a := mkApp (Some "QUJD"%string) 0 None false false [] Null Idle [] in
  let run := generateSingleView false world a in
  snd run = mkResult false None true /\
  calls gemini_flash_image (effects (fst run)) = 2%nat /\
  uiState (fst run) = Terminating /\
  failureCount (fst run) = 0.
Proof. repeat split. Qed.

(** * Further properties *)

(** ** Admission in terms of what the store holds *)

Lemma sortZ_fixes_sorted (l : list Z) : StronglySorted Z.le l -> sortZ l = l.
Proof.
  induction 1 as [|x l Hl IH Hx]; [reflexivity|].
  cbn [sortZ]. rewrite IH. destruct l as [|y r]; [reflexivity|].
  cbn [insertZ]. inversion Hx; subst.
  destruct (0 <? x - y) eqn:E; [|reflexivity].
  apply Z.ltb_lt in E. lia.
Qed.

Lemma filter_twice (f : Z -> bool) (l : list Z) :
  filter f (filter f l) = filter f l.
Proof.
  induction l as [|x l IH]; [reflexivity|].
  cbn. destruct (f x) eqn:E; [|assumption].
  cbn. now rewrite E, IH.
Qed.

Lemma filter_none (f : Z -> bool) (l : list Z) :
  Forall (fun x => f x = false) l -> filter f l = [].
Proof.
  induction 1 as [|x l Hx _ IH]; [reflexivity|].
  cbn. now rewrite Hx.
Qed.

Lemma filter_all (f : Z -> bool) (l : list Z) :
  Forall (fun x => f x = true) l -> filter f l = l.
Proof.
  induction 1 as [|x l Hx _ IH]; [reflexivity|].
  cbn. now rewrite Hx, IH.
Qed.

Lemma fresh_count (now : Z) (ts : list Z) :
  List.length (filter (fresh now) (sortZ ts))
  = List.length (filter (fresh now) ts).
Proof.
  apply Permutation_length, filter_Permutation, sortZ_Permutation.
Qed.

(** X1.  On a store that holds a list of numbers, a click is admitted
    exactly when fewer than five of the stored entries are younger than the
    window at the clock reading of the load: then the entries kept, in
    ascending order, are written back and written again with the new
    timestamp appended; with five or more such entries the click only
    writes the kept entries back and raises the alert. *)
Theorem admission_counts_fresh_entries (type : GenerationType)
        (now_load now_push : Z) (world : World) (ts : list Z) (a : App) :
  localStorage a = JSON_stringify (map JNumber ts) ->
  let a' := handleGenerationClick type now_load now_push world a in
  exists kept,
    Permutation kept (filter (fresh now_load) ts) /\
    Sorted Z.le kept /\
    (Z.of_nat (List.length (filter (fresh now_load) ts))
     < RATE_LIMIT_MAX_GENERATIONS ->
     exists session,
       effects a'
       = effects a ++ setItem (map JNumber kept)
                   :: setItem (map JNumber (kept ++ [now_push])) :: session) /\
    (RATE_LIMIT_MAX_GENERATIONS
     <= Z.of_nat (List.length (filter (fresh now_load) ts)) ->
     effects a' = effects a ++ [setItem (map JNumber kept); alert LimitReached] /\
     generationTimestamps a' = map JNumber kept).
Proof.
  intros Hst a'.
  pose proof (load_numbers now_load ts a Hst) as Hlog.
  exists (filter (fresh now_load) (sortZ ts)).
  split; [apply filter_Permutation, sortZ_Permutation|].
  split; [apply StronglySorted_Sorted, filter_sorted, sortZ_sorted|].
  split; intros H.
  - assert (Hl : limitReached (loadRateLimitData now_load a) = false).
    { apply limitReached_false. rewrite Hlog, length_map, fresh_count. exact H. }
    destruct (admitted_click_effects type now_load now_push world a Hl)
      as (session & E).
    exists session. unfold a'. rewrite E, Hlog, map_app. reflexivity.
  - assert (Hl : limitReached (loadRateLimitData now_load a) = true).
    { apply limitReached_true. rewrite Hlog, length_map, fresh_count. exact H. }
    split.
    + unfold a'. rewrite (denied_click_effects _ _ _ _ _ Hl), Hlog. reflexivity.
    + unfold a'. rewrite (denied_click _ _ _ _ _ Hl). exact Hlog.
Qed.

Lemma admission_counts_fresh_entries_witness :
  let world : World := fun _ => mkAttempt [] generate_rejects [] verify_rejects in
  let ts := [240000; 0; 120000; 60000; 180000] in
  let a := mkApp None 0 None false false [] (JSON_stringify (map JNumber ts))
                 Idle [] in
  exists kept,
    Permutation kept (filter (fresh 610000) ts) /\
    Sorted Z.le kept /\
    exists session,
      effects (handleGenerationClick generate 610000 610001 world a)
      = setItem (map JNumber kept)
        :: setItem (map JNumber (kept ++ [610001])) :: session.
Proof.
  intros world ts a.
  destruct (admission_counts_fresh_entries generate 610000 610001 world ts a
              eq_refl) as (kept & Hp & Hs & Hadm & _).
  exists kept. split; [exact Hp|]. split; [exact Hs|].
  apply Hadm. vm_compute. reflexivity.
Defined.

(** X2.  The limit is not permanent: when every stored entry is at least
    the window old at the click, the click is admitted whatever the number
    of stored entries; the store is emptied and then holds the new
    timestamp alone. *)
Theorem quota_recovers (type : GenerationType) (now_load now_push : Z)
        (world : World) (ts : list Z) (a : App) :
  localStorage a = JSON_stringify (map JNumber ts) ->
  Forall (fun entry => RATE_LIMIT_WINDOW_MS <= now_load - entry) ts ->
  let a' := handleGenerationClick type now_load now_push world a in
  (exists session,
      effects a' = effects a ++ setItem [] :: setItem [JNumber now_push]
                             :: session) /\
  (quiet no_reload world ->
   generationTimestamps a' = [JNumber now_push] /\
   localStorage a' = JSON_stringify [JNumber now_push]).
Proof.
  intros Hst Hold a'.
  assert (Hlog : generationTimestamps (loadRateLimitData now_load a) = []).
  { rewrite (load_numbers now_load ts a Hst).
    rewrite filter_none; [reflexivity|].
    apply (Permutation_Forall (Permutation_sym (sortZ_Permutation ts))).
    eapply Forall_impl; [|exact Hold].
    intros e He. unfold fresh. apply Z.ltb_ge. exact He. }
  assert (Hl : limitReached (loadRateLimitData now_load a) = false).
  { apply limitReached_false. rewrite Hlog. cbn.
    unfold RATE_LIMIT_MAX_GENERATIONS. lia. }
  split.
  - destruct (admitted_click_effects type now_load now_push world a Hl)
      as (session & E).
    exists session. unfold a'. rewrite E, Hlog. reflexivity.
  - intros Hw.
    destruct (admitted_click type now_load now_push world a Hl)
      as (admitted & Hadm & Hs & _ & _ & _ & _ & Hclick).
    rewrite Hlog in Hadm. cbn [app] in Hadm. rewrite Hadm in Hs.
    unfold a'. rewrite Hclick. destruct type.
    + destruct (startGenerationProcess_same_log world admitted Hw) as [E1 E2].
      split; congruence.
    + destruct (generateSingleView_same_log true world admitted Hw) as [E1 E2].
      split; congruence.
Qed.

Lemma quota_recovers_witness :
  let world : World := fun _ => mkAttempt [] generate_rejects [] verify_rejects in
  let ts := [0; 1000; 2000; 3000; 4000; 5000; 6000] in
  let a := mkApp None 0 None false false [] (JSON_stringify (map JNumber ts))
                 Idle [] in
  generationTimestamps (handleGenerationClick regenerate 606000 606001 world a)
  = [JNumber 606001].
Proof.
  intros world ts a.
  apply (proj2 (quota_recovers regenerate 606000 606001 world ts a eq_refl
                  ltac:(unfold RATE_LIMIT_WINDOW_MS;
                        repeat constructor; cbn; lia))).
  intros k. split; reflexivity.
Defined.

(** X3.  Loading again only prunes.  After a load of a list of integers
    (the timestamps the program itself writes; a number that is no integer
    double, such as 1e400, is not covered), a second load at any clock
    reading keeps, in the same order, the entries of the first log that are
    younger than the window at the second reading; at the same reading the
    second load changes neither the log nor the store. *)
Theorem reload_only_prunes (now now' : Z) (ts : list Z) (a : App) :
  localStorage a = JSON_stringify (map JNumber ts) ->
  let once := loadRateLimitData now a in
  let twice := loadRateLimitData now' once in
  exists log,
    generationTimestamps once = map JNumber log /\
    generationTimestamps twice = map JNumber (filter (fresh now') log) /\
    (now' = now ->
     generationTimestamps twice = generationTimestamps once /\
     localStorage twice = localStorage once).
Proof.
  intros Hst once twice.
  pose proof (load_numbers now ts a Hst) as H1. fold once in H1.
  exists (filter (fresh now) (sortZ ts)). split; [exact H1|].
  assert (H2 : generationTimestamps twice
               = map JNumber (filter (fresh now')
                                (filter (fresh now) (sortZ ts)))).
  { unfold twice. rewrite (load_numbers now' (filter (fresh now) (sortZ ts))).
    - rewrite sortZ_fixes_sorted; [reflexivity|].
      apply filter_sorted, sortZ_sorted.
    - unfold once. rewrite load_localStorage. fold once. now rewrite H1. }
  split; [exact H2|].
  intros ->. rewrite filter_twice in H2.
  split; [congruence|].
  unfold twice, once. rewrite !load_localStorage. fold once. fold twice.
  congruence.
Qed.

Lemma reload_only_prunes_witness :
  let a := mkApp None 0 None false false []
                 (JSON_stringify (map JNumber [5000; 0; 3000])) Idle [] in
  generationTimestamps (loadRateLimitData 601000 (loadRateLimitData 1000 a))
  = map JNumber [3000; 5000].
Proof.
  intros a.
  destruct (reload_only_prunes 1000 601000 [5000; 0; 3000] a eq_refl)
    as (log & H1 & H2 & _).
  rewrite H2.
  assert (E : map JNumber log = map JNumber [0; 3000; 5000]) by (rewrite <- H1; reflexivity).
  assert (El : log = [0; 3000; 5000]).
  { revert E. clear. revert log.
    assert (inj : forall l l', map JNumber l = map JNumber l' -> l = l').
    { induction l as [|x l IH]; destruct l' as [|y l']; cbn; intros H;
        try discriminate; [reflexivity|].
      inversion H; subst. f_equal. now apply IH. }
    intros log E. now apply inj. }
  rewrite El. reflexivity.
Defined.

(** ** The store follows the log *)

Lemma same_log_synced (a a' : App) : same_log a a' -> synced a -> synced a'.
Proof. unfold synced. intros [E1 E2] H. congruence. Qed.

Lemma run_callback_synced (c : Callback) (a : App) :
  synced a -> synced (run_callback c a).
Proof.
  destruct c as [|checked| |file|now];
    try (apply same_log_synced, run_callback_same_log; reflexivity).
  intros _. apply load_localStorage.
Qed.

Lemma run_callbacks_synced (cs : list Callback) (a : App) :
  synced a -> synced (run_callbacks cs a).
Proof.
  revert a. induction cs as [|c cs IH]; intros a H; cbn; [assumption|].
  apply IH. now apply run_callback_synced.
Qed.

Lemma emit_synced (e : Effect) (a : App) : synced a -> synced (emit e a).
Proof. intros H. exact H. Qed.

Lemma _updateUIState_synced (s : UIState) (r : bool) (a : App) :
  synced a -> synced (_updateUIState s r a).
Proof. intros H. exact H. Qed.

#[local] Hint Resolve run_callbacks_synced emit_synced _updateUIState_synced
  : app.

Lemma attempts_synced (remaining attempt : nat) (world : World) (a : App) :
  synced a -> synced (fst (attempts remaining attempt world a)).
Proof.
  revert attempt a.
  induction remaining as [|remaining IH]; intros attempt a H; [assumption|].
  one_pass a1; cbn [fst]; auto 6 with app;
    try (apply IH); unfold a1; auto 8 with app.
Qed.

Lemma generateSingleView_synced (isRegen : bool) (world : World) (a : App) :
  synced a -> synced (fst (generateSingleView isRegen world a)).
Proof.
  intros H. unfold generateSingleView.
  pose proof (attempts_synced MAX_ATTEMPTS 1 world
                (_updateUIState Loading isRegen a) H) as Hs.
  destruct (attempts MAX_ATTEMPTS 1 world (_updateUIState Loading isRegen a))
    as [a1 [r|ok data]]; cbn [fst] in *; [exact Hs|].
  destruct ok; [|destruct isRegen]; exact Hs.
Qed.

Lemma handleGenerationClick_synced (type : GenerationType)
      (now_load now_push : Z) (world : World) (a : App) :
  synced (handleGenerationClick type now_load now_push world a).
Proof.
  unfold handleGenerationClick.
  destruct (limitReached (loadRateLimitData now_load a)).
  - apply load_localStorage.
  - set (admitted := saveTimestamps _).
    assert (H : synced admitted) by reflexivity.
    destruct type.
    + unfold startGenerationProcess.
      destruct (negb (truthy (uploadedBase64Image admitted))); [exact H|].
      apply generateSingleView_synced. exact H.
    + now apply generateSingleView_synced.
Qed.

(** X4.  No change of the log is left unsaved: after the constructor and
    any sequence of clicks and listeners, with any clock readings and any
    answers of the remote models, the item in the store is
    [JSON.stringify] of the log that is in memory. *)
Theorem store_follows_log (now : Z) (stored : StoredData) (es : list Event) :
  localStorage (run es (constructor now stored))
  = JSON_stringify (generationTimestamps (run es (constructor now stored))).
Proof.
  assert (H : synced (constructor now stored)) by apply load_localStorage.
  revert H. generalize (constructor now stored).
  induction es as [|e es IH]; intros a H; [exact H|].
  cbn [run fold_left]. apply IH.
  destruct e as [c|type now_load now_push world]; cbn [dispatch].
  - now apply run_callback_synced.
  - apply handleGenerationClick_synced.
Qed.

(** ** A generate click without a photo *)

(** X6.  [handleGenerationClick] spends the quota before
    [startGenerationProcess] looks for a photo: an admitted generate click
    made with no photo uploaded writes the log with the new timestamp to the
    store and then only raises the upload alert.  No remote call is made,
    and the status, the failure counter and the cancellation flag are as
    before the click. *)
Theorem generate_without_photo_spends_quota (now_load now_push : Z)
        (world : World) (a : App) :
  truthy (uploadedBase64Image a) = false ->
  let pruned := generationTimestamps (loadRateLimitData now_load a) in
  Z.of_nat (List.length pruned) < RATE_LIMIT_MAX_GENERATIONS ->
  let a' := handleGenerationClick generate now_load now_push world a in
  effects a' = effects a ++ [setItem pruned;
                             setItem (pruned ++ [JNumber now_push]);
                             alert UploadFirst] /\
  generationTimestamps a' = pruned ++ [JNumber now_push] /\
  localStorage a' = JSON_stringify (pruned ++ [JNumber now_push]) /\
  uiState a' = uiState a /\
  failureCount a' = failureCount a /\
  isGenerationTerminated a' = isGenerationTerminated a.
Proof.
  intros Hup pruned H a'. apply limitReached_false in H.
  unfold a', handleGenerationClick. rewrite H.
  unfold startGenerationProcess.
  change (uploadedBase64Image (saveTimestamps _)) with (uploadedBase64Image a).
  rewrite Hup. cbn [negb].
  repeat split.
  cbn [saveTimestamps emit set_localStorage set_generationTimestamps effects
       generationTimestamps].
  rewrite load_effects, <- !app_assoc. reflexivity.
Qed.

Lemma generate_without_photo_spends_quota_witness :
  let world : World :=
    fun _ => mkAttempt [] (generate_resolves (Some "AAAA"%string)) []
                       (verify_resolves true) in
  let a := handleGenerationClick generate 1000 1000 world (constructor 0 Null) in
  generationTimestamps a = [JNumber 1000] /\
  effects a = [setItem []; setItem []; setItem [JNumber 1000]; alert UploadFirst].
Proof.
  intros world.
  pose proof (generate_without_photo_spends_quota 1000 1000 world
                (constructor 0 Null) eq_refl) as H.
  cbv zeta in H. destruct H as (He & Hl & _).
  - vm_compute. reflexivity.
  - split; [exact Hl | exact He].
Defined.

(** ** More on the retry loop *)

Lemma attempts_verify_le (remaining attempt : nat) (world : World) (a : App) :
  exists added,
    effects (fst (attempts remaining attempt world a)) = effects a ++ added /\
    (calls gemini_flash added <= calls gemini_flash_image added)%nat.
Proof.
  revert attempt a.
  induction remaining as [|remaining IH]; intros attempt a.
  { exists []. cbn. rewrite app_nil_r. auto. }
  destruct (run_callbacks_effects (while_generating (world attempt))
              (emit (generateContent gemini_flash_image) a)) as (g & Eg & Cg).
  destruct (run_callbacks_effects (while_verifying (world attempt))
              (emit (generateContent gemini_flash)
                 (run_callbacks (while_generating (world attempt))
                    (emit (generateContent gemini_flash_image) a))))
    as (v & Ev & Cv).
  cbn [emit effects] in Eg, Ev. rewrite Eg in Ev.
  pose proof (IH (S attempt)
                (run_callbacks (while_generating (world attempt))
                   (emit (generateContent gemini_flash_image) a)))
    as (r1 & Er1 & Cr1).
  pose proof (IH (S attempt)
                (run_callbacks (while_verifying (world attempt))
                   (emit (generateContent gemini_flash)
                      (run_callbacks (while_generating (world attempt))
                         (emit (generateContent gemini_flash_image) a)))))
    as (r2 & Er2 & Cr2).
  assert (Hgen : calls gemini_flash [generateContent gemini_flash_image] = O)
    by reflexivity.
  assert (Hgen' : calls gemini_flash_image [generateContent gemini_flash_image]
                  = 1%nat) by reflexivity.
  assert (Hver : calls gemini_flash [generateContent gemini_flash] = 1%nat)
    by reflexivity.
  assert (Hver' : calls gemini_flash_image [generateContent gemini_flash] = O)
    by reflexivity.
  one_pass a1; cbn [fst].
  - exists [updateUIState Terminating false]. split; [reflexivity|]. cbn. lia.
  - exists (([generateContent gemini_flash_image] ++ g) ++ r1). split.
    + rewrite Er1, Eg. now rewrite <- !app_assoc.
    + rewrite !calls_app, !Cg, Hgen, Hgen'. lia.
  - exists (([generateContent gemini_flash_image] ++ g) ++ r1). split.
    + rewrite Er1, Eg. now rewrite <- !app_assoc.
    + rewrite !calls_app, !Cg, Hgen, Hgen'. lia.
  - exists ([generateContent gemini_flash_image] ++ g). split.
    + rewrite Eg. now rewrite <- !app_assoc.
    + rewrite !calls_app, !Cg, Hgen, Hgen'. lia.
  - exists ((([generateContent gemini_flash_image] ++ g)
               ++ [generateContent gemini_flash] ++ v) ++ r2). split.
    + rewrite Er2, Ev. now rewrite <- !app_assoc.
    + rewrite !calls_app, !Cg, !Cv, Hgen, Hgen', Hver, Hver'. lia.
  - exists (([generateContent gemini_flash_image] ++ g)
              ++ [generateContent gemini_flash] ++ v). split.
    + rewrite Ev. now rewrite <- !app_assoc.
    + rewrite !calls_app, !Cg, !Cv, Hgen, Hgen', Hver, Hver'. lia.
  - exists ((([generateContent gemini_flash_image] ++ g)
               ++ [generateContent gemini_flash] ++ v) ++ r2). split.
    + rewrite Er2, Ev. now rewrite <- !app_assoc.
    + rewrite !calls_app, !Cg, !Cv, Hgen, Hgen', Hver, Hver'. lia.
  - exists (([generateContent gemini_flash_image] ++ g) ++ r1). split.
    + rewrite Er1, Eg. now rewrite <- !app_assoc.
    + rewrite !calls_app, !Cg, Hgen, Hgen'. lia.
Qed.

(** X7.  One run of [generateSingleView] never asks the verification model
    more often than it has asked the generation model: a verification call
    only follows a generation call that returned a payload. *)
Theorem verification_follows_generation (isRegeneration : bool) (world : World)
        (a : App) :
  exists issued,
    effects (fst (generateSingleView isRegeneration world a))
    = effects a ++ issued /\
    (calls gemini_flash issued <= calls gemini_flash_image issued)%nat.
Proof.
  unfold generateSingleView.
  destruct (attempts_verify_le MAX_ATTEMPTS 1 world
              (_updateUIState Loading isRegeneration a)) as (added & E & C).
  destruct (attempts MAX_ATTEMPTS 1 world
              (_updateUIState Loading isRegeneration a)) as [a1 [r|ok data]];
    cbn [fst] in *.
  - exists ([updateUIState Loading isRegeneration] ++ added). split.
    + rewrite E. cbn. now rewrite <- app_assoc.
    + now rewrite !calls_app.
  - exists (([updateUIState Loading isRegeneration] ++ added)
              ++ [updateUIState (if ok then Success else Failure)
                                (if ok then false else isRegeneration)]).
    split.
    + destruct ok; [|destruct isRegeneration]; cbn; rewrite E; cbn;
        now rewrite <- !app_assoc.
    + rewrite !calls_app. destruct ok; cbn; cbn in C; lia.
Qed.

Lemma run_callbacks_keeps_running (cs : list Callback) (a : App) :
  forallb keeps_running cs = true ->
  isGenerationTerminated a = false ->
  isGenerationTerminated (run_callbacks cs a) = false.
Proof.
  revert a. induction cs as [|c cs IH]; intros a Hcs Ha; cbn; [assumption|].
  cbn in Hcs. apply andb_prop in Hcs as [Hc Hcs].
  apply IH; [assumption|].
  destruct c as [|checked| |file|now]; cbn in *; try assumption;
    try discriminate.
  unfold handleFile. destruct file as [f|]; [|assumption].
  destruct (String.prefix "image/" (type f)); [|assumption].
  destruct (negb (String.eqb (result f) EmptyString)); [|assumption].
  destruct (includes comma (result f)); assumption.
Qed.

Lemma attempts_exhausted (remaining attempt : nat) (world : World) (a : App) :
  isGenerationTerminated a = false ->
  (forall k, has_payload (response (world k)) = false) ->
  (forall k, forallb keeps_running (while_generating (world k)) = true) ->
  exists added,
    effects (fst (attempts remaining attempt world a)) = effects a ++ added /\
    calls gemini_flash_image added = remaining /\
    calls gemini_flash added = O /\
    snd (attempts remaining attempt world a) = Finished false None.
Proof.
  intros Hflag Hp Hw. revert attempt a Hflag.
  induction remaining as [|remaining IH]; intros attempt a Hflag.
  { exists []. cbn. rewrite app_nil_r. auto. }
  cbn [attempts]. rewrite Hflag.
  destruct (run_callbacks_effects (while_generating (world attempt))
              (emit (generateContent gemini_flash_image) a)) as (g & Eg & Cg).
  pose proof (run_callbacks_keeps_running _
                (emit (generateContent gemini_flash_image) a)
                (Hw attempt) Hflag) as Hflag1.
  destruct (IH (S attempt) _ Hflag1) as (r & Er & Cr & Kr & Sr).
  assert (Hgoal :
    exists added,
      effects (fst (attempts remaining (S attempt) world
                      (run_callbacks (while_generating (world attempt))
                         (emit (generateContent gemini_flash_image) a))))
      = effects a ++ added /\
      calls gemini_flash_image added = S remaining /\
      calls gemini_flash added = O /\
      snd (attempts remaining (S attempt) world
             (run_callbacks (while_generating (world attempt))
                (emit (generateContent gemini_flash_image) a)))
      = Finished false None).
  { exists (([generateContent gemini_flash_image] ++ g) ++ r).
    split; [|split; [|split]].
    - rewrite Er, Eg. cbn [emit effects]. now rewrite <- !app_assoc.
    - rewrite !calls_app, Cg, Cr. reflexivity.
    - rewrite !calls_app, Cg, Kr. reflexivity.
    - exact Sr. }
  specialize (Hp attempt).
  destruct (response (world attempt)) as [|payload]; [exact Hgoal|].
  cbn [has_payload] in Hp. rewrite Hp. exact Hgoal.
Qed.

(** X8.  When no generation call returns a payload (the call rejects, or
    resolves with null or an empty string) and the terminate button is not
    clicked, a run that starts with the flag unset uses the whole budget:
    exactly five generation calls, no verification call, the result
    {success: false, base64Data: null, terminated: false} and the failure
    status. *)
Theorem exhausted_budget_is_rejected (isRegeneration : bool) (world : World)
        (a : App) :
  isGenerationTerminated a = false ->
  (forall k, has_payload (response (world k)) = false) ->
  (forall k, forallb keeps_running (while_generating (world k)) = true) ->
  snd (generateSingleView isRegeneration world a) = mkResult false None false /\
  uiState (fst (generateSingleView isRegeneration world a)) = Failure /\
  exists issued,
    effects (fst (generateSingleView isRegeneration world a))
    = effects a ++ issued /\
    calls gemini_flash_image issued = MAX_ATTEMPTS /\
    calls gemini_flash issued = O.
Proof.
  intros Hflag Hp Hw. unfold generateSingleView.
  destruct (attempts_exhausted MAX_ATTEMPTS 1 world
              (_updateUIState Loading isRegeneration a) Hflag Hp Hw)
    as (added & E & C & K & S).
  destruct (attempts MAX_ATTEMPTS 1 world
              (_updateUIState Loading isRegeneration a)) as [a1 x];
    cbn [fst snd] in *. subst x.
  split; [reflexivity|]. split; [now destruct isRegeneration|].
  exists (([updateUIState Loading isRegeneration] ++ added)
            ++ [updateUIState Failure isRegeneration]).
  split; [|split].
  - destruct isRegeneration; cbn; rewrite E; cbn; now rewrite <- !app_assoc.
  - rewrite !calls_app, C. reflexivity.
  - rewrite !calls_app, K. reflexivity.
Qed.

Lemma exhausted_budget_is_rejected_witness :
  let world : World := fun k =>
    match k with
    | 2%nat => mkAttempt [isCartoonCheckbox_change true]
                         (generate_resolves (Some ""%string)) [] verify_rejects
    | 3%nat => mkAttempt [] (generate_resolves None) [] (verify_resolves true)
    | _ => mkAttempt [] generate_rejects [] verify_rejects
    end in
  let a := mkApp (Some "QUJD"%string) 0 None false false [] Null Idle [] in
  snd (generateSingleView false world a) = mkResult false None false /\
  uiState (fst (generateSingleView false world a)) = Failure.
Proof.
  intros world a.
  destruct (exhausted_budget_is_rejected false world a) as (H1 & H2 & _).
  - reflexivity.
  - intros [|[|[|[|k]]]]; reflexivity.
  - intros [|[|[|[|k]]]]; reflexivity.
  - split; [exact H1 | exact H2].
Defined.

Lemma attempts_swallowed (remaining attempt : nat) (world : World) (a : App) :
  attempts remaining attempt (fun k => swallowed (world k)) a
  = attempts remaining attempt world a.
Proof.
  revert attempt a.
  induction remaining as [|remaining IH]; intros attempt a; [reflexivity|].
  cbn [attempts]. destruct (isGenerationTerminated a); [reflexivity|].
  cbn [swallowed while_generating response].
  set (a1 := run_callbacks _ _).
  destruct (response (world attempt)) as [|[payload|]]; cbn [has_payload].
  - cbn [truthy]. apply IH.
  - destruct (truthy (Some payload)) eqn:E.
    + rewrite E. destruct (isCartoonMode a1); [reflexivity|].
      unfold verifyImageMatch. cbn [swallowed while_verifying verdict].
      destruct (verdict (world attempt)) as [|[|]]; try reflexivity; apply IH.
    + cbn [truthy]. apply IH.
  - cbn [truthy]. apply IH.
Qed.

(** X9.  Failures of the remote models are swallowed: for the run it makes
    no difference whether a generation call rejects, resolves without a
    payload or resolves with an empty one, nor whether a verification call
    rejects or answers that the images do not match.  Replacing every such
    failure by the empty answer leaves the final state (trace included) and
    the result unchanged. *)
Theorem remote_failures_are_swallowed (isRegeneration : bool) (world : World)
        (a : App) :
  generateSingleView isRegeneration (fun k => swallowed (world k)) a
  = generateSingleView isRegeneration world a.
Proof.
  unfold generateSingleView. now rewrite attempts_swallowed.
Qed.

Lemma attempts_returned_flag (remaining attempt : nat) (world : World)
      (a : App) (r : GenerationResult) :
  snd (attempts remaining attempt world a) = Returned r ->
  isGenerationTerminated (fst (attempts remaining attempt world a)) = true.
Proof.
  revert attempt a.
  induction remaining as [|remaining IH]; intros attempt a; [discriminate|].
  one_pass a1; cbn [fst snd]; try discriminate; try apply IH.
  all: intros _; cbn; assumption.
Qed.

Lemma attempts_not_returned (remaining attempt : nat) (world : World)
      (a : App) (r : GenerationResult) :
  isGenerationTerminated a = false ->
  quiet keeps_running world ->
  snd (attempts remaining attempt world a) <> Returned r.
Proof.
  intros Hflag Hw. revert attempt a Hflag.
  induction remaining as [|remaining IH]; intros attempt a Hflag; [discriminate|].
  destruct (Hw attempt) as [Hg Hv].
  pose proof (run_callbacks_keeps_running _
                (emit (generateContent gemini_flash_image) a) Hg Hflag) as H1.
  pose proof (run_callbacks_keeps_running _
                (emit (generateContent gemini_flash)
                   (run_callbacks (while_generating (world attempt))
                      (emit (generateContent gemini_flash_image) a)))
                Hv H1) as H2.
  one_pass a1; cbn [fst snd]; try discriminate; try (apply IH; assumption).
Qed.

(** X10.  A run is reported as terminated only after the terminate button:
    whenever the result says terminated, the cancellation flag is set when
    the run ends (and the run itself never clears it); and a run that
    starts with the flag unset, during which the button is not clicked, is
    never reported as terminated. *)
Theorem terminated_only_after_terminate_click (isRegeneration : bool)
        (world : World) (a : App) :
  (terminated (snd (generateSingleView isRegeneration world a)) = true ->
   isGenerationTerminated (fst (generateSingleView isRegeneration world a))
   = true) /\
  (isGenerationTerminated a = false ->
   quiet keeps_running world ->
   terminated (snd (generateSingleView isRegeneration world a)) = false).
Proof.
  unfold generateSingleView.
  pose proof (attempts_returned_flag MAX_ATTEMPTS 1 world
                (_updateUIState Loading isRegeneration a)) as Hret.
  pose proof (attempts_not_returned MAX_ATTEMPTS 1 world
                (_updateUIState Loading isRegeneration a)) as Hnot.
  destruct (attempts MAX_ATTEMPTS 1 world
              (_updateUIState Loading isRegeneration a)) as [a1 [r|ok data]];
    cbn [fst snd] in *.
  - split.
    + intros _. now apply (Hret r).
    + intros Hflag Hw. now destruct (Hnot r Hflag Hw).
  - split; [discriminate | reflexivity].
Qed.

Lemma terminated_only_after_terminate_click_witness :
  let world : World := fun _ =>
    mkAttempt [clearButton_click] (generate_resolves (Some "AAAA"%string))
              [isCartoonCheckbox_change true] (verify_resolves false) in
  let a := mkApp (Some "QUJD"%string) 0 None false false [] Null Idle [] in
  terminated (snd (generateSingleView true world a)) = false.
Proof.
  intros world a.
  apply (proj2 (terminated_only_after_terminate_click true world a));
    [reflexivity|].
  intros k. split; reflexivity.
Defined.

Lemma attempts_first_accepted (failures remaining attempt : nat)
      (world : World) (a : App) (payload : string) :
  isGenerationTerminated a = false ->
  (forall k, forallb keeps_running (while_generating (world k)) = true) ->
  (forall k, (attempt <= k < attempt + failures)%nat ->
             has_payload (response (world k)) = false) ->
  response (world (attempt + failures)%nat) = generate_resolves (Some payload) ->
  payload <> EmptyString ->
  verdict (world (attempt + failures)%nat) = verify_resolves true ->
  (failures < remaining)%nat ->
  snd (attempts remaining attempt world a) = Finished true (Some payload) /\
  exists added,
    effects (fst (attempts remaining attempt world a)) = effects a ++ added /\
    calls gemini_flash_image added = S failures.
Proof.
  intros Hflag Hw. revert remaining attempt a Hflag.
  induction failures as [|failures IH];
    intros remaining attempt a Hflag Hfail Hresp Hpay Hver Hlt.
  - destruct remaining as [|remaining]; [lia|].
    rewrite Nat.add_0_r in Hresp, Hver.
    cbn [attempts]. rewrite Hflag, Hresp.
    assert (Ht : truthy (Some payload) = true).
    { cbn. now apply String.eqb_neq in Hpay as ->. }
    rewrite Ht.
    destruct (run_callbacks_effects (while_generating (world attempt))
                (emit (generateContent gemini_flash_image) a)) as (g & Eg & Cg).
    set (a1 := run_callbacks _ _) in *.
    destruct (isCartoonMode a1).
    + split; [reflexivity|].
      exists ([generateContent gemini_flash_image] ++ g). split.
      * cbn [fst]. rewrite Eg. cbn [emit effects]. now rewrite <- app_assoc.
      * now rewrite calls_app, Cg.
    + unfold verifyImageMatch. rewrite Hver. cbn [fst snd].
      split; [reflexivity|].
      destruct (run_callbacks_effects (while_verifying (world attempt))
                  (emit (generateContent gemini_flash) a1)) as (v & Ev & Cv).
      exists (([generateContent gemini_flash_image] ++ g)
                ++ [generateContent gemini_flash] ++ v). split.
      * rewrite Ev. cbn [emit effects]. rewrite Eg. cbn [emit effects].
        now rewrite <- !app_assoc.
      * now rewrite !calls_app, Cg, Cv.
  - destruct remaining as [|remaining]; [lia|].
    cbn [attempts]. rewrite Hflag.
    assert (Hp : has_payload (response (world attempt)) = false)
      by (apply Hfail; lia).
    destruct (run_callbacks_effects (while_generating (world attempt))
                (emit (generateContent gemini_flash_image) a)) as (g & Eg & Cg).
    pose proof (run_callbacks_keeps_running _
                  (emit (generateContent gemini_flash_image) a)
                  (Hw attempt) Hflag) as Hflag1.
    set (a1 := run_callbacks _ _) in *.
    destruct (IH remaining (S attempt) a1 Hflag1) as (Hs & added & Ea & Ca).
    + intros k Hk. apply Hfail. lia.
    + now replace (S attempt + failures)%nat with (attempt + S failures)%nat
        by lia.
    + exact Hpay.
    + now replace (S attempt + failures)%nat with (attempt + S failures)%nat
        by lia.
    + lia.
    + assert (Hgoal :
        snd (attempts remaining (S attempt) world a1)
        = Finished true (Some payload) /\
        exists added0,
          effects (fst (attempts remaining (S attempt) world a1))
          = effects a ++ added0 /\
          calls gemini_flash_image added0 = S (S failures)).
      { split; [exact Hs|].
        exists (([generateContent gemini_flash_image] ++ g) ++ added). split.
        - rewrite Ea, Eg. cbn [emit effects]. now rewrite <- !app_assoc.
        - now rewrite !calls_app, Cg, Ca. }
      destruct (response (world attempt)) as [|p]; [exact Hgoal|].
      cbn [has_payload] in Hp. rewrite Hp. exact Hgoal.
Qed.

(** X12.  The run stops at the first candidate that is accepted and returns
    it.  When the terminate button is not clicked, attempts 1 to k - 1
    return no payload, and attempt k (k at most 5) returns a non-empty
    payload that the verification model accepts (or that cartoon mode lets
    through unverified), the run makes exactly k generation calls, returns
    {success: true, base64Data: payload, terminated: false}, stores the
    payload and shows the success status. *)
Theorem run_stops_at_first_accepted (isRegeneration : bool) (world : World)
        (a : App) (k : nat) (payload : string) :
  isGenerationTerminated a = false ->
  (forall i, forallb keeps_running (while_generating (world i)) = true) ->
  (1 <= k <= MAX_ATTEMPTS)%nat ->
  (forall i, (1 <= i < k)%nat -> has_payload (response (world i)) = false) ->
  response (world k) = generate_resolves (Some payload) ->
  payload <> EmptyString ->
  verdict (world k) = verify_resolves true ->
  snd (generateSingleView isRegeneration world a)
  = mkResult true (Some payload) false /\
  successfulImageData (fst (generateSingleView isRegeneration world a))
  = Some payload /\
  uiState (fst (generateSingleView isRegeneration world a)) = Success /\
  exists issued,
    effects (fst (generateSingleView isRegeneration world a))
    = effects a ++ issued /\
    calls gemini_flash_image issued = k.
Proof.
  intros Hflag Hw Hk Hfail Hresp Hpay Hver. unfold generateSingleView.
  destruct (attempts_first_accepted (k - 1) MAX_ATTEMPTS 1 world
              (_updateUIState Loading isRegeneration a) payload Hflag Hw)
    as (Hs & added & E & C).
  - intros i Hi. apply Hfail. lia.
  - now replace (1 + (k - 1))%nat with k by lia.
  - exact Hpay.
  - now replace (1 + (k - 1))%nat with k by lia.
  - lia.
  - destruct (attempts MAX_ATTEMPTS 1 world
                (_updateUIState Loading isRegeneration a)) as [a1 x];
      cbn [fst snd] in *. subst x.
    repeat split.
    exists (([updateUIState Loading isRegeneration] ++ added)
              ++ [updateUIState Success false]).
    split.
    + cbn. rewrite E. cbn. now rewrite <- !app_assoc.
    + rewrite !calls_app, C. cbn. lia.
Qed.

Lemma run_stops_at_first_accepted_witness :
  let world : World := fun i =>
    match i with
    | 3%nat => mkAttempt [] (generate_resolves (Some "AAAA"%string))
                         [] (verify_resolves true)
    | _ => mkAttempt [] (generate_resolves None) [] verify_rejects
    end in
  let a := mkApp (Some "QUJD"%string) 0 None false false [] Null Idle [] in
  snd (generateSingleView false world a)
  = mkResult true (Some "AAAA"%string) false.
Proof.
  intros world a.
  apply (proj1 (run_stops_at_first_accepted false world a 3 "AAAA"%string
                  eq_refl
                  ltac:(intros [|[|[|[|i]]]]; reflexivity)
                  ltac:(unfold MAX_ATTEMPTS; lia)
                  ltac:(intros [|[|[|i]]] Hi; try reflexivity; lia)
                  eq_refl
                  ltac:(discriminate)
                  eq_refl)).
Defined.

(** ** The countdown *)

Lemma updateTimer_numeric_head (now oldest : Z) (rest : list JSValue) (a : App) :
  generationTimestamps a = JNumber oldest :: rest ->
  rateLimit_updateTimer now a
  = Some (if RATE_LIMIT_WINDOW_MS <=? now - oldest
          then slot_reset
          else
            let totalSeconds := (oldest + RATE_LIMIT_WINDOW_MS - now + 999) / 1000 in
            next_reset (Num (totalSeconds / 60)) (Num (Z.rem totalSeconds 60))
              (padStart 2 zero_digit (Number_toString (Num (totalSeconds / 60))))
              (padStart 2 zero_digit
                 (Number_toString (Num (Z.rem totalSeconds 60))))).
Proof.
  intros H. unfold rateLimit_updateTimer. rewrite H.
  cbn [expiryTime ToNumber Completion.bind Completion.ret minus Math_max0].
  destruct (RATE_LIMIT_WINDOW_MS <=? now - oldest) eqn:E.
  - apply Z.leb_le in E.
    replace (Z.max 0 (oldest + RATE_LIMIT_WINDOW_MS - now)) with 0 by lia.
    reflexivity.
  - apply Z.leb_gt in E.
    replace (Z.max 0 (oldest + RATE_LIMIT_WINDOW_MS - now))
      with (oldest + RATE_LIMIT_WINDOW_MS - now) by lia.
    destruct (oldest + RATE_LIMIT_WINDOW_MS - now) eqn:R; try lia; reflexivity.
Qed.

(** X13.  The countdown and the load agree on when an entry expires.  With a
    number at the head of the log, the inner [updateTimer] announces that a
    slot was reset (and asks for a reload) exactly when that entry no longer
    passes the window test of [loadRateLimitData] at the same clock reading;
    until then it keeps ticking. *)
Theorem countdown_resets_when_head_expires (now oldest : Z)
        (rest : list JSValue) (a : App) :
  generationTimestamps a = JNumber oldest :: rest ->
  (rateLimit_updateTimer now a = Some slot_reset <->
   in_window now (JNumber oldest) = Some false) /\
  ((exists minutes seconds mm ss,
       rateLimit_updateTimer now a = Some (next_reset minutes seconds mm ss)) <->
   in_window now (JNumber oldest) = Some true).
Proof.
  intros H. rewrite (updateTimer_numeric_head now oldest rest a H).
  unfold in_window.
  cbn [ToNumber Completion.bind Completion.ret minus lessThan].
  destruct (RATE_LIMIT_WINDOW_MS <=? now - oldest) eqn:E.
  - apply Z.leb_le in E.
    assert (E' : (now - oldest <? RATE_LIMIT_WINDOW_MS) = false)
      by (apply Z.ltb_ge; lia).
    rewrite E'. split; split; try reflexivity; try discriminate.
    intros (m & s & mm & ss & Hx). discriminate.
  - apply Z.leb_gt in E.
    assert (E' : (now - oldest <? RATE_LIMIT_WINDOW_MS) = true)
      by (apply Z.ltb_lt; lia).
    rewrite E'. split; split; try reflexivity; try discriminate.
    intros _. cbv zeta. eauto.
Qed.

Lemma countdown_resets_when_head_expires_witness :
  let a := mkApp None 0 None false false [JNumber 1000; JNumber 5000]
                 (JSON_stringify [JNumber 1000; JNumber 5000]) Idle [] in
  rateLimit_updateTimer 601000 a = Some slot_reset.
Proof.
  intros a.
  apply (proj1 (countdown_resets_when_head_expires 601000 1000 [JNumber 5000] a
                  eq_refl)).
  reflexivity.
Defined.

Lemma pad2_length (n : Z) :
  0 <= n < 100 ->
  String.length (padStart 2 zero_digit (Number_toString (Num n))) = 2%nat.
Proof.
  intros H. replace n with (Z.of_nat (Z.to_nat n)) by lia.
  assert (Hk : (Z.to_nat n < 100)%nat) by lia.
  revert Hk. generalize (Z.to_nat n). clear.
  intros k.
  do 100 (destruct k as [|k]; [reflexivity|]).
  lia.
Qed.

(** X14.  What the countdown shows.  Take a number at the head of the log
    that has not expired and is not ahead of the clock, both being
    non-negative and small enough for the expiry time to be a safe integer
    (as every reading of [Date.now()] is).  Then the inner [updateTimer]
    shows minutes and seconds with 0 <= seconds < 60 whose total is the
    remaining time rounded up to a whole second, the minutes are at most 10,
    and both fields are shown with exactly two characters. *)
Theorem countdown_display (now oldest : Z) (rest : list JSValue) (a : App) :
  generationTimestamps a = JNumber oldest :: rest ->
  0 <= oldest <= now ->
  now + RATE_LIMIT_WINDOW_MS <= MAX_SAFE_INTEGER ->
  now - oldest < RATE_LIMIT_WINDOW_MS ->
  exists minutes seconds mm ss,
    rateLimit_updateTimer now a
    = Some (next_reset (Num minutes) (Num seconds) mm ss) /\
    0 <= minutes <= 10 /\ 0 <= seconds < 60 /\
    1000 * (60 * minutes + seconds) - 1000
    < oldest + RATE_LIMIT_WINDOW_MS - now
    <= 1000 * (60 * minutes + seconds) /\
    String.length mm = 2%nat /\ String.length ss = 2%nat.
Proof.
  intros H Hnow _ Hw. rewrite (updateTimer_numeric_head now oldest rest a H).
  assert (E : (RATE_LIMIT_WINDOW_MS <=? now - oldest) = false)
    by (apply Z.leb_gt; lia).
  rewrite E. cbv zeta.
  set (total := (oldest + RATE_LIMIT_WINDOW_MS - now + 999) / 1000).
  assert (Ht : 1000 * total - 1000 < oldest + RATE_LIMIT_WINDOW_MS - now
               <= 1000 * total).
  { unfold total.
    pose proof (Z.div_mod (oldest + RATE_LIMIT_WINDOW_MS - now + 999) 1000
                  ltac:(lia)).
    pose proof (Z.mod_pos_bound (oldest + RATE_LIMIT_WINDOW_MS - now + 999) 1000
                  ltac:(lia)).
    lia. }
  assert (Hpos : 0 < total) by lia.
  assert (Hrem : Z.rem total 60 = total mod 60)
    by (apply Z.rem_mod_nonneg; lia).
  pose proof (Z.div_mod total 60 ltac:(lia)) as Hdm.
  pose proof (Z.mod_pos_bound total 60 ltac:(lia)) as Hmb.
  assert (Hdiv : 0 <= total / 60) by (apply Z.div_pos; lia).
  assert (Hle : total <= 600).
  { unfold RATE_LIMIT_WINDOW_MS in *. lia. }
  assert (Hm : total / 60 <= 10).
  { apply Z.div_le_upper_bound; lia. }
  exists (total / 60), (Z.rem total 60).
  eexists. eexists. split; [reflexivity|].
  rewrite Hrem.
  split; [lia|]. split; [exact Hmb|]. split; [lia|].
  split; apply pad2_length; lia.
Qed.

Lemma countdown_display_witness :
  let a := mkApp None 0 None false false [JNumber 1762000000000]
                 (JSON_stringify [JNumber 1762000000000]) Idle [] in
  exists minutes seconds mm ss,
    rateLimit_updateTimer 1762000060500 a
    = Some (next_reset (Num minutes) (Num seconds) mm ss) /\
    0 <= minutes <= 10 /\
    String.length mm = 2%nat /\ String.length ss = 2%nat.
Proof.
  intros a.
  destruct (countdown_display 1762000060500 1762000000000 [] a eq_refl
              ltac:(lia)
              ltac:(unfold RATE_LIMIT_WINDOW_MS, MAX_SAFE_INTEGER; lia)
              ltac:(unfold RATE_LIMIT_WINDOW_MS; lia))
    as (m & s & mm & ss & H & Hm & _ & _ & Hl).
  exists m, s, mm, ss. split; [exact H|]. split; [exact Hm | exact Hl].
Defined.

(** X15.  The countdown that a load starts.  After [loadRateLimitData] on a
    list of numbers, [startRateLimitTimer] at the same clock reading shows
    nothing when the log is empty; otherwise the head of the log is its
    oldest entry (no other entry is smaller), and the countdown starts
    ticking towards that entry's expiry: it does not start in the reset
    state. *)
Theorem countdown_after_load (now : Z) (ts : list Z) (a : App) :
  localStorage a = JSON_stringify (map JNumber ts) ->
  let a' := loadRateLimitData now a in
  exists log,
    generationTimestamps a' = map JNumber log /\
    (log = [] -> startRateLimitTimer now a' = None) /\
    (forall oldest rest,
        log = oldest :: rest ->
        Forall (fun entry => oldest <= entry) rest /\
        exists minutes seconds mm ss,
          startRateLimitTimer now a'
          = Some (Some (next_reset minutes seconds mm ss))).
Proof.
  intros Hst a'.
  pose proof (load_numbers now ts a Hst) as Hlog. fold a' in Hlog.
  exists (filter (fresh now) (sortZ ts)). split; [exact Hlog|]. split.
  - intros E. unfold startRateLimitTimer. now rewrite Hlog, E.
  - intros oldest rest E.
    pose proof (filter_sorted (fresh now) _ (sortZ_sorted ts)) as Hs.
    pose proof (filter_fresh now (sortZ ts)) as Hf.
    rewrite E in Hs, Hf, Hlog. cbn [map] in Hlog.
    apply StronglySorted_inv in Hs as [_ Hs]. split; [exact Hs|].
    inversion Hf as [|? ? Hf0 _]; subst.
    unfold startRateLimitTimer. rewrite Hlog.
    rewrite (updateTimer_numeric_head now oldest (map JNumber rest) a' Hlog).
    replace (RATE_LIMIT_WINDOW_MS <=? now - oldest) with false
      by (symmetry; apply Z.leb_gt; lia).
    cbv zeta. eauto.
Qed.

(** ** The estimate shown during a generation *)

Lemma interval_ticks_stopped (n : nat) (t : ViewTimer) :
  timerInterval t = false -> interval_ticks n t = t.
Proof.
  revert t. induction n as [|n IH]; intros t H; [reflexivity|].
  cbn [interval_ticks]. unfold interval_tick. rewrite H. now apply IH.
Qed.

Lemma interval_ticks_running (n : nat) (k : Z) :
  0 < k ->
  interval_ticks n (mkViewTimer k true (updateText k))
  = mkViewTimer (Z.max 0 (k - Z.of_nat n)) (Z.of_nat n <? k)
                (updateText (Z.max 0 (k - Z.of_nat n))).
Proof.
  revert k. induction n as [|n IH]; intros k Hk.
  - cbn [interval_ticks Z.of_nat].
    replace (Z.max 0 (k - 0)) with k by lia.
    replace (0 <? k) with true by (symmetry; apply Z.ltb_lt; lia).
    reflexivity.
  - cbn [interval_ticks]. unfold interval_tick.
    cbn [timerInterval timeLeft].
    destruct (k - 1 <=? 0) eqn:E.
    + apply Z.leb_le in E. assert (k = 1) by lia. subst k.
      rewrite interval_ticks_stopped by reflexivity.
      unfold stopTimer. cbn [timeLeft timer_text].
      replace (Z.max 0 (1 - Z.of_nat (S n))) with 0 by lia.
      replace (Z.of_nat (S n) <? 1) with false
        by (symmetry; apply Z.ltb_ge; lia).
      reflexivity.
    + apply Z.leb_gt in E. rewrite IH by lia.
      replace (k - 1 - Z.of_nat n) with (k - Z.of_nat (S n)) by lia.
      f_equal.
      destruct (Z.of_nat n <? k - 1) eqn:E1;
        [apply Z.ltb_lt in E1; symmetry; apply Z.ltb_lt
        |apply Z.ltb_ge in E1; symmetry; apply Z.ltb_ge]; lia.
Qed.

(** X16.  The estimate counts down and stops.  Whatever was running before,
    [updateTimer] starts at 20 seconds; after n ticks of its interval the
    time left is 20 - n and never below 0, the interval is still set
    exactly while n < 20, and the text is the estimate while time is left
    and "still processing" from the twentieth tick on. *)
Theorem estimate_counts_down (n : nat) (t : ViewTimer) :
  let t' := interval_ticks n (updateTimer t) in
  timeLeft t' = Z.max 0 (ESTIMATED_TIME_PER_VIEW - Z.of_nat n) /\
  timerInterval t' = (Z.of_nat n <? ESTIMATED_TIME_PER_VIEW) /\
  timer_text t'
  = (if Z.of_nat n <? ESTIMATED_TIME_PER_VIEW
     then estimated_remaining (ESTIMATED_TIME_PER_VIEW - Z.of_nat n)
     else still_processing).
Proof.
  intros t'. unfold t', updateTimer. cbv zeta.
  rewrite interval_ticks_running by (unfold ESTIMATED_TIME_PER_VIEW; lia).
  cbn [timeLeft timerInterval timer_text].
  split; [reflexivity|]. split; [reflexivity|].
  unfold updateText.
  destruct (Z.of_nat n <? ESTIMATED_TIME_PER_VIEW) eqn:E.
  - apply Z.ltb_lt in E.
    replace (Z.max 0 (ESTIMATED_TIME_PER_VIEW - Z.of_nat n))
      with (ESTIMATED_TIME_PER_VIEW - Z.of_nat n) by lia.
    replace (0 <? ESTIMATED_TIME_PER_VIEW - Z.of_nat n) with true
      by (symmetry; apply Z.ltb_lt; lia).
    reflexivity.
  - apply Z.ltb_ge in E.
    replace (Z.max 0 (ESTIMATED_TIME_PER_VIEW - Z.of_nat n)) with 0 by lia.
    reflexivity.
Qed.

(** ** Reading the uploaded file *)

Lemma split_header (header rest : string) :
  includes comma header = false ->
  split comma (header ++ String comma rest) = header :: split comma rest.
Proof.
  induction header as [|c header IH]; cbn [includes append split]; intros H.
  - reflexivity.
  - apply orb_false_elim in H as [Hc Hh].
    rewrite Hc, (IH Hh). reflexivity.
Qed.

Lemma split_no_separator (s : string) :
  includes comma s = false -> split comma s = [s].
Proof.
  induction s as [|c s IH]; cbn [includes split]; intros H; [reflexivity|].
  apply orb_false_elim in H as [Hc Hs]. now rewrite Hc, (IH Hs).
Qed.

Lemma includes_header (header rest : string) :
  includes comma (header ++ String comma rest) = true.
Proof.
  induction header as [|c header IH]; cbn [includes append].
  - reflexivity.
  - rewrite IH. apply orb_true_r.
Qed.

Lemma append_not_empty (header rest : string) :
  String.eqb (header ++ String comma rest) EmptyString = false.
Proof. now destruct header. Qed.

(** X17.  What [handleFile] takes from a file.  For a file whose type
    starts with "image/" and whose data URL is a comma-free header, a comma
    and a comma-free payload, the payload becomes the uploaded image; when
    more commas follow, only the text between the first and the second
    comma is kept.  A non-empty result without any comma leaves the image
    uploaded before in place.  In all three cases the failure counter is
    put to zero and nothing else is done.  A file of another type only
    raises the alert. *)
Theorem handleFile_takes_payload (f : File) (a : App) :
  (String.prefix "image/" (type f) = true ->
   (forall header payload,
       includes comma header = false ->
       includes comma payload = false ->
       result f = (header ++ String comma payload)%string ->
       handleFile (Some f) a
       = set_failureCount 0 (set_uploadedBase64Image (Some payload) a)) /\
   (forall header payload more,
       includes comma header = false ->
       includes comma payload = false ->
       result f = (header ++ String comma (payload ++ String comma more))%string ->
       handleFile (Some f) a
       = set_failureCount 0 (set_uploadedBase64Image (Some payload) a)) /\
   (includes comma (result f) = false ->
    result f <> EmptyString ->
    handleFile (Some f) a = set_failureCount 0 a)) /\
  (String.prefix "image/" (type f) = false ->
   handleFile (Some f) a = emit (alert InvalidFile) a).
Proof.
  split.
  - intros Hty. split; [|split].
    + intros header payload Hh Hp Hr. unfold handleFile.
      rewrite Hty, Hr, append_not_empty, includes_header, (split_header _ _ Hh).
      rewrite (split_no_separator _ Hp). reflexivity.
    + intros header payload more Hh Hp Hr. unfold handleFile.
      rewrite Hty, Hr, append_not_empty, includes_header, (split_header _ _ Hh).
      rewrite (split_header _ _ Hp). reflexivity.
    + intros Hc Hne. unfold handleFile. rewrite Hty, Hc.
      apply String.eqb_neq in Hne. now rewrite Hne.
  - intros Hty. unfold handleFile. now rewrite Hty.
Qed.

Lemma handleFile_takes_payload_witness :
  let f := mkFile "image/jpeg" "data:image/jpeg;base64,QUJD" in
  let a := constructor 0 Null in
  uploadedBase64Image (handleFile (Some f) a) = Some "QUJD"%string.
Proof.
  intros f a.
  destruct (handleFile_takes_payload f a) as [H _].
  destruct (H eq_refl) as (H1 & _).
  rewrite (H1 "data:image/jpeg;base64"%string "QUJD"%string eq_refl eq_refl
              eq_refl).
  reflexivity.
Defined.

(** ** Handing the image out *)

(** X19.  How an image is handed out.  With a non-empty successful image,
    [downloadImage] ends in exactly one of three ways.  A share that the
    browser completes is the only thing done.  Otherwise (sharing not
    asked for or not supported, the file not shareable, the fetch failing
    or the share call rejecting) the download link is clicked when the
    download block runs through; when it throws, the alert is raised and
    the image is written to a new tab if one opens.  The file is named
    id_photo_<viewName>.jpg and the source is the JPEG data URL of the
    stored payload. *)
Theorem downloadImage_outcomes (viewName data : string) (useShareApi : bool)
        (b : Browser) (a : App) :
  successfulImageData a = Some data ->
  data <> EmptyString ->
  let fileName := ("id_photo_" ++ viewName ++ ".jpg")%string in
  let imgSrc := ("data:image/jpeg;base64," ++ data)%string in
  let shared := useShareApi && share_api b && share_fetch b
                && canShare_files b && share_resolves b in
  let out := downloadImage viewName useShareApi b a in
  (shared = true -> out = [share fileName imgSrc]) /\
  (In (link_click fileName imgSrc) out <->
   shared = false /\ link_download b = true) /\
  (In alert_download_failed out <->
   shared = false /\ link_download b = false) /\
  (In (tab_write imgSrc) out <->
   shared = false /\ link_download b = false /\ window_open b = true) /\
  ~ In console_warn out.
Proof.
  intros Himg Hne fileName imgSrc shared out.
  unfold out, downloadImage. rewrite Himg.
  assert (Ht : truthy (Some data) = true).
  { cbn. now apply String.eqb_neq in Hne as ->. }
  rewrite Ht. fold imgSrc. fold fileName. unfold shared, direct_download.
  destruct b as [[] [] [] [] [] []], useShareApi;
    cbn [andb share_api share_fetch canShare_files share_resolves
         link_download window_open In];
    unfold not; repeat split; intros; try discriminate; try congruence;
    repeat match goal with
           | H : _ /\ _ |- _ => destruct H
           | H : _ \/ _ |- _ => destruct H
           | H : False |- _ => destruct H
           end;
    try discriminate; try congruence; auto 10.
Qed.

Lemma downloadImage_outcomes_witness :
  let a := mkApp (Some "QUJD"%string) 0 (Some "AAAA"%string) false false []
                 Null Success [] in
  downloadImage "id_photo" true (mkBrowser true true true true false false) a
  = [share "id_photo_id_photo.jpg" "data:image/jpeg;base64,AAAA"].
Proof.
  intros a.
  apply (proj1 (downloadImage_outcomes "id_photo" "AAAA" true
                  (mkBrowser true true true true false false) a
                  eq_refl ltac:(discriminate))).
  reflexivity.
Defined.

(** ** After the terminate button *)

Lemma generateSingleView_cancelled (isRegen : bool) (world : World) (a : App) :
  isGenerationTerminated a = true ->
  generateSingleView isRegen world a
  = (_updateUIState Terminating false (_updateUIState Loading isRegen a),
     mkResult false None true).
Proof.
  intros H. unfold generateSingleView. cbn [MAX_ATTEMPTS attempts].
  change (isGenerationTerminated (_updateUIState Loading isRegen a))
    with (isGenerationTerminated a).
  now rewrite H.
Qed.

Lemma dispatch_after_terminate (e : Event) (a : App) :
  isGenerationTerminated a = true ->
  only_regenerate e = true ->
  isGenerationTerminated (dispatch e a) = true /\
  exists added,
    effects (dispatch e a) = effects a ++ added /\
    forall m, calls m added = O.
Proof.
  intros Hflag He. destruct e as [c|[|] now_load now_push world];
    cbn [dispatch]; try discriminate.
  - split; [|apply run_callback_effects].
    destruct c as [|checked| |file|now]; cbn; try assumption; try reflexivity.
    unfold handleFile. destruct file as [f|]; [|assumption].
    destruct (String.prefix "image/" (type f)); [|assumption].
    destruct (negb (String.eqb (result f) EmptyString)); [|assumption].
    destruct (includes comma (result f)); assumption.
  - unfold handleGenerationClick.
    destruct (limitReached (loadRateLimitData now_load a)).
    + split; [exact Hflag|].
      exists [setItem (generationTimestamps (loadRateLimitData now_load a));
              alert LimitReached].
      split; [|now intros []].
      cbn [emit effects]. rewrite load_effects, <- app_assoc. reflexivity.
    + set (admitted := saveTimestamps _).
      rewrite (generateSingleView_cancelled true world admitted Hflag).
      split; [exact Hflag|].
      exists [setItem (generationTimestamps (loadRateLimitData now_load a));
              setItem (generationTimestamps (loadRateLimitData now_load a)
                         ++ [JNumber now_push]);
              updateUIState Loading true; updateUIState Terminating false].
      split; [|now intros []].
      unfold admitted.
      cbn [fst _updateUIState saveTimestamps emit set_uiState set_localStorage
           set_generationTimestamps effects generationTimestamps].
      rewrite load_effects, <- !app_assoc. reflexivity.
Qed.

(** X20.  Once the terminate button has been clicked, only a click on
    generate brings the generator back.  From a state with the
    cancellation flag set, any sequence of regenerate clicks and listeners
    leaves the flag set and calls neither remote model, however many
    regenerate clicks are admitted (each admitted one still spends an entry
    of the quota). *)
Theorem regenerate_blocked_after_terminate (es : list Event) (a : App) :
  isGenerationTerminated a = true ->
  forallb only_regenerate es = true ->
  isGenerationTerminated (run es a) = true /\
  exists added,
    effects (run es a) = effects a ++ added /\
    calls gemini_flash_image added = O /\
    calls gemini_flash added = O.
Proof.
  revert a. induction es as [|e es IH]; intros a Hflag Hes.
  - split; [exact Hflag|]. exists []. now rewrite app_nil_r.
  - cbn in Hes. apply andb_prop in Hes as [He Hes].
    destruct (dispatch_after_terminate e a Hflag He) as (Hflag1 & l1 & E1 & C1).
    destruct (IH (dispatch e a) Hflag1 Hes) as (Hflag2 & l2 & E2 & C2 & K2).
    cbn [run fold_left]. fold (run es (dispatch e a)).
    split; [exact Hflag2|].
    exists (l1 ++ l2). split; [|split].
    + now rewrite E2, E1, app_assoc.
    + now rewrite calls_app, C1, C2.
    + now rewrite calls_app, C1, K2.
Qed.

Lemma regenerate_blocked_after_terminate_witness :
  let photo := mkFile "image/png" "data:image/png;base64,QUJD" in
  let answers : World :=
    fun _ => mkAttempt [] (generate_resolves (Some "AAAA"%string))
                       [] (verify_resolves true) in
  let interrupted : World :=
    fun _ => mkAttempt [terminate_click] generate_rejects [] verify_rejects in
  let a := run [callback (imageInput_change (Some photo));
                generation_click generate 1000 1000 interrupted]
               (constructor 0 Null) in
  let a' := run [generation_click regenerate 2000 2000 answers;
                 callback (isCartoonCheckbox_change true);
                 generation_click regenerate 3000 3000 answers] a in
  isGenerationTerminated a' = true /\
  exists added,
    effects a' = effects a ++ added /\ calls gemini_flash_image added = O.
Proof.
  intros photo answers interrupted a.
  destruct (regenerate_blocked_after_terminate
              [generation_click regenerate 2000 2000 answers;
               callback (isCartoonCheckbox_change true);
               generation_click regenerate 3000 3000 answers] a
              eq_refl eq_refl) as (H1 & added & E & C & _).
  split; [exact H1|]. exists added. split; [exact E | exact C].
Defined.

(** ** A log of numbers stays a log of numbers *)

Lemma numbers_of_members (members : list JSValue) :
  forallb is_number members = true -> exists ts, members = map JNumber ts.
Proof.
  induction members as [|m members IH]; cbn; intros H.
  - now exists [].
  - apply andb_prop in H as [Hm H]. destruct (IH H) as (ts & ->).
    destruct m; try discriminate. now exists (n :: ts).
Qed.

Lemma load_numeric_store (now : Z) (ts : list Z) (a : App) :
  localStorage a = JSON_stringify (map JNumber ts) ->
  numeric_log (loadRateLimitData now a).
Proof.
  intros Hst.
  exists (filter (fresh now) (sortZ ts)).
  pose proof (load_numbers now ts a Hst) as H. split; [exact H|].
  rewrite load_localStorage. now rewrite H.
Qed.

Lemma load_numeric (now : Z) (a : App) :
  numeric_log a -> numeric_log (loadRateLimitData now a).
Proof.
  intros (log & _ & Hst). now apply (load_numeric_store now log).
Qed.

Lemma same_log_numeric (a a' : App) :
  same_log a a' -> numeric_log a -> numeric_log a'.
Proof.
  intros [E1 E2] (log & H1 & H2). exists log. split; congruence.
Qed.

Lemma run_callbacks_numeric (cs : list Callback) (a : App) :
  numeric_log a -> numeric_log (run_callbacks cs a).
Proof.
  revert a. induction cs as [|c cs IH]; intros a H; cbn; [assumption|].
  apply IH. destruct c as [|checked| |file|now];
    try (apply (same_log_numeric a); [apply run_callback_same_log; reflexivity
                                     | exact H]).
  now apply load_numeric.
Qed.

Lemma emit_numeric (e : Effect) (a : App) : numeric_log a -> numeric_log (emit e a).
Proof. intros H. exact H. Qed.

Lemma _updateUIState_numeric (s : UIState) (r : bool) (a : App) :
  numeric_log a -> numeric_log (_updateUIState s r a).
Proof. intros H. exact H. Qed.

#[local] Hint Resolve run_callbacks_numeric emit_numeric _updateUIState_numeric
  : app.

Lemma attempts_numeric (remaining attempt : nat) (world : World) (a : App) :
  numeric_log a -> numeric_log (fst (attempts remaining attempt world a)).
Proof.
  revert attempt a.
  induction remaining as [|remaining IH]; intros attempt a H; [assumption|].
  one_pass a1; cbn [fst]; auto 6 with app;
    try (apply IH); unfold a1; auto 8 with app.
Qed.

Lemma generateSingleView_numeric (isRegen : bool) (world : World) (a : App) :
  numeric_log a -> numeric_log (fst (generateSingleView isRegen world a)).
Proof.
  intros H. unfold generateSingleView.
  pose proof (attempts_numeric MAX_ATTEMPTS 1 world
                (_updateUIState Loading isRegen a) H) as Hs.
  destruct (attempts MAX_ATTEMPTS 1 world (_updateUIState Loading isRegen a))
    as [a1 [r|ok data]]; cbn [fst] in *; [exact Hs|].
  destruct ok; [|destruct isRegen]; exact Hs.
Qed.

Lemma handleGenerationClick_numeric (type : GenerationType)
      (now_load now_push : Z) (world : World) (a : App) :
  numeric_log a ->
  numeric_log (handleGenerationClick type now_load now_push world a).
Proof.
  intros H. apply (load_numeric now_load) in H.
  unfold handleGenerationClick.
  destruct (limitReached (loadRateLimitData now_load a)); [exact H|].
  set (admitted := saveTimestamps _).
  assert (Ha : numeric_log admitted).
  { destruct H as (log & H1 & _). exists (log ++ [now_push]).
    unfold admitted.
    cbn [saveTimestamps emit set_localStorage set_generationTimestamps
         generationTimestamps localStorage].
    rewrite H1, map_app. split; reflexivity. }
  destruct type.
  - unfold startGenerationProcess.
    destruct (negb (truthy (uploadedBase64Image admitted))); [exact Ha|].
    apply generateSingleView_numeric. exact Ha.
  - now apply generateSingleView_numeric.
Qed.

(** X21.  When the store holds no array, or an array of integers only
    (no fraction and no number beyond the range of doubles), at
    construction, the log stays a list of integers for good: after any
    sequence of clicks and listeners the log in memory is a list of
    integers and the store holds that same list. *)
Theorem numeric_log_is_kept (now : Z) (stored : StoredData) (es : list Event) :
  (forall members,
      stored = Text (Some (ArrayOf members)) ->
      forallb is_number members = true) ->
  exists log : list Z,
    generationTimestamps (run es (constructor now stored)) = map JNumber log /\
    localStorage (run es (constructor now stored))
    = JSON_stringify (map JNumber log).
Proof.
  intros Hst.
  assert (H : numeric_log (constructor now stored)).
  { unfold constructor.
    destruct stored as [| |[[|members]|]];
      try (exists []; split; reflexivity).
    destruct (numbers_of_members members (Hst _ eq_refl)) as (ts & ->).
    now apply (load_numeric_store now ts). }
  revert H. generalize (constructor now stored).
  induction es as [|e es IH]; intros a H; [exact H|].
  cbn [run fold_left]. apply IH.
  destruct e as [c|type now_load now_push world]; cbn [dispatch].
  - now apply (run_callbacks_numeric [c]).
  - now apply handleGenerationClick_numeric.
Qed.

Lemma numeric_log_is_kept_witness :
  let photo := mkFile "image/png" "data:image/png;base64,QUJD" in
  let answers : World :=
    fun _ => mkAttempt [rateLimitTimer_reload 700000]
                       (generate_resolves (Some "AAAA"%string))
                       [] (verify_resolves true) in
  let a := run [callback (imageInput_change (Some photo));
                generation_click generate 650000 650001 answers]
               (constructor 1000 (JSON_stringify (map JNumber [500; 300; 900]))) in
  exists log : list Z,
    generationTimestamps a = map JNumber log /\
    localStorage a = JSON_stringify (map JNumber log).
Proof.
  intros photo answers.
  apply (numeric_log_is_kept 1000 (JSON_stringify (map JNumber [500; 300; 900]))).
  intros members H. inversion H; subst. reflexivity.
Defined.

(** ** The order of the log after an admission *)

Lemma sorted_snoc (l : list Z) (x : Z) :
  StronglySorted Z.le l ->
  Forall (fun e => e <= x) l ->
  StronglySorted Z.le (l ++ [x]).
Proof.
  induction 1 as [|y l Hl IH Hy]; intros Hx; cbn.
  - repeat constructor.
  - inversion Hx; subst. constructor; [now apply IH|].
    apply Forall_app. split; [assumption|]. now repeat constructor.
Qed.

(** X22.  The new entry keeps the log in ascending order when the clock has
    not fallen behind the store.  On a list of numbers, when no stored entry
    is later than the clock reading that is pushed, the log an admitted
    click writes to the store (the kept entries followed by the new
    timestamp) is in ascending order, so its head is still the entry that
    expires first. *)
Theorem admission_keeps_log_ascending (type : GenerationType)
        (now_load now_push : Z) (world : World) (ts : list Z) (a : App) :
  localStorage a = JSON_stringify (map JNumber ts) ->
  Forall (fun entry => entry <= now_push) ts ->
  Z.of_nat (List.length (filter (fresh now_load) ts))
  < RATE_LIMIT_MAX_GENERATIONS ->
  let a' := handleGenerationClick type now_load now_push world a in
  exists kept,
    Permutation kept (filter (fresh now_load) ts) /\
    Sorted Z.le (kept ++ [now_push]) /\
    (exists session,
        effects a'
        = effects a ++ setItem (map JNumber kept)
                    :: setItem (map JNumber (kept ++ [now_push])) :: session) /\
    (quiet no_reload world ->
     generationTimestamps a' = map JNumber (kept ++ [now_push])).
Proof.
  intros Hst Hle Hcount a'.
  pose proof (load_numbers now_load ts a Hst) as Hlog.
  assert (Hl : limitReached (loadRateLimitData now_load a) = false).
  { apply limitReached_false. rewrite Hlog, length_map, fresh_count.
    exact Hcount. }
  exists (filter (fresh now_load) (sortZ ts)).
  split; [apply filter_Permutation, sortZ_Permutation|].
  split; [|split].
  - apply StronglySorted_Sorted, sorted_snoc.
    + apply filter_sorted, sortZ_sorted.
    + apply Forall_forall. intros e He. apply filter_In in He as [He _].
      rewrite Forall_forall in Hle. apply Hle.
      apply (Permutation_in _ (sortZ_Permutation ts) He).
  - destruct (admitted_click_effects type now_load now_push world a Hl)
      as (session & E).
    exists session. unfold a'. rewrite E, Hlog, map_app. reflexivity.
  - intros Hw.
    destruct (admitted_click type now_load now_push world a Hl)
      as (admitted & Hadm & _ & _ & _ & _ & _ & Hclick).
    rewrite Hlog in Hadm. unfold a'. rewrite Hclick, map_app.
    destruct type.
    + destruct (startGenerationProcess_same_log world admitted Hw) as [E1 _].
      cbn [map]. congruence.
    + destruct (generateSingleView_same_log true world admitted Hw) as [E1 _].
      cbn [map]. congruence.
Qed.

Lemma admission_keeps_log_ascending_witness :
  let world : World := fun _ => mkAttempt [] generate_rejects [] verify_rejects in
  let ts := [5000; 1000; 3000] in
  let a := mkApp None 0 None false false [] (JSON_stringify (map JNumber ts))
                 Idle [] in
  exists kept,
    Sorted Z.le (kept ++ [6000]) /\
    generationTimestamps (handleGenerationClick regenerate 6000 6000 world a)
    = map JNumber (kept ++ [6000]).
Proof.
  intros world ts a.
  destruct (admission_keeps_log_ascending regenerate 6000 6000 world ts a
              eq_refl
              ltac:(repeat constructor; lia)
              ltac:(vm_compute; reflexivity))
    as (kept & _ & Hs & _ & Hq).
  exists kept. split; [exact Hs|]. apply Hq. intros k. split; reflexivity.
Defined.

Lemma countdown_after_load_witness :
  let a := mkApp None 0 None false false []
                 (JSON_stringify (map JNumber [5000; 1000; 3000])) Idle [] in
  exists log,
    generationTimestamps (loadRateLimitData 602000 a) = map JNumber log /\
    forall oldest rest,
      log = oldest :: rest ->
      exists minutes seconds mm ss,
        startRateLimitTimer 602000 (loadRateLimitData 602000 a)
        = Some (Some (next_reset minutes seconds mm ss)).
Proof.
  intros a.
  destruct (countdown_after_load 602000 [5000; 1000; 3000] a eq_refl)
    as (log & Hlog & _ & Hhead).
  exists log. split; [exact Hlog|].
  intros oldest rest E. exact (proj2 (Hhead oldest rest E)).
Defined.

(** * Sessions that overlap *)

(** ** One session at a time is the sequential reading *)

Lemma generateSingleView_conclude (isRegeneration : bool) (world : World)
      (a : App) :
  fst (generateSingleView isRegeneration world a)
  = conclude isRegeneration
      (attempts MAX_ATTEMPTS 1 world (_updateUIState Loading isRegeneration a)).
Proof.
  unfold generateSingleView, conclude, finish.
  destruct (attempts MAX_ATTEMPTS 1 world
              (_updateUIState Loading isRegeneration a)) as [a1 [r|ok data]];
    reflexivity.
Qed.

Lemma drive_no_session (fuel : nat) (world : World) (p : Page) :
  in_flight p = [] -> drive fuel world p = p.
Proof.
  intros H. induction fuel as [|fuel IH]; [reflexivity|].
  cbn [drive]. unfold drive_step. rewrite H. exact IH.
Qed.

Lemma drive_S (fuel : nat) (world : World) (p : Page) :
  drive (S fuel) world p = drive fuel world (drive_step world p).
Proof. reflexivity. Qed.

Lemma drive_attempts (isRegeneration : bool) (world : World) (n : nat) :
  forall (fuel k : nat) (a : App),
    (2 * n <= fuel)%nat ->
    (k + n = S MAX_ATTEMPTS)%nat ->
    drive fuel world
      (mkPage (fst (next_attempt isRegeneration k a))
              (sessions_of (snd (next_attempt isRegeneration k a))))
    = mkPage (conclude isRegeneration (attempts n k world a)) [].
Proof.
  induction n as [|n IH]; intros fuel k a Hfuel Hk.
  - unfold next_attempt.
    replace (k <=? MAX_ATTEMPTS)%nat with false
      by (symmetry; apply Nat.leb_gt; lia).
    cbn [fst snd sessions_of attempts conclude].
    now apply drive_no_session.
  - unfold next_attempt.
    replace (k <=? MAX_ATTEMPTS)%nat with true
      by (symmetry; apply Nat.leb_le; lia).
    cbn [attempts].
    destruct (isGenerationTerminated a) eqn:Eflag.
    + cbn [fst snd sessions_of conclude]. now apply drive_no_session.
    + cbn [fst snd sessions_of].
      destruct fuel as [|[|fuel]]; [lia | lia |].
      assert (Hnext : forall b,
                 drive (S fuel) world
                   (mkPage (fst (next_attempt isRegeneration (S k) b))
                      (sessions_of (snd (next_attempt isRegeneration (S k) b))))
                 = mkPage (conclude isRegeneration (attempts n (S k) world b)) [])
        by (intros b; apply IH; lia).
      rewrite drive_S. unfold drive_step.
      cbn [in_flight page_app session_attempt session_awaited page_step resume].
      unfold generation_settles.
      cbn [session_awaited session_isRegeneration session_attempt].
      set (a1 := run_callbacks (while_generating (world k))
                   (emit (generateContent gemini_flash_image) a)).
      destruct (response (world k)) as [|data].
      * specialize (Hnext a1).
        destruct (next_attempt isRegeneration (S k) a1) as [b [s|]];
          exact Hnext.
      * destruct (truthy data).
        -- destruct (isCartoonMode a1).
           ++ cbn [conclude]. now apply drive_no_session.
           ++ unfold verifyImageMatch. rewrite drive_S. unfold drive_step.
              cbn [in_flight page_app session_attempt session_awaited
                   page_step resume].
              unfold verification_settles.
              cbn [session_awaited session_isRegeneration session_attempt].
              set (a2 := run_callbacks (while_verifying (world k))
                           (emit (generateContent gemini_flash) a1)).
              assert (Hnext' : forall b,
                 drive fuel world
                   (mkPage (fst (next_attempt isRegeneration (S k) b))
                      (sessions_of (snd (next_attempt isRegeneration (S k) b))))
                 = mkPage (conclude isRegeneration
                             (attempts n (S k) world b)) [])
                by (intros b; apply IH; lia).
              specialize (Hnext' a2).
              destruct (verdict (world k)) as [|[|]].
              ** destruct (next_attempt isRegeneration (S k) a2) as [b [s|]];
                   exact Hnext'.
              ** cbn [conclude]. now apply drive_no_session.
              ** destruct (next_attempt isRegeneration (S k) a2) as [b [s|]];
                   exact Hnext'.
        -- specialize (Hnext a1).
           destruct (next_attempt isRegeneration (S k) a1) as [b [s|]];
             exact Hnext.
Qed.

Lemma begin_generateSingleView_agrees (isRegeneration : bool) (world : World)
      (a : App) :
  drive (2 * MAX_ATTEMPTS) world
    (mkPage (fst (begin_generateSingleView isRegeneration a))
            (sessions_of (snd (begin_generateSingleView isRegeneration a))))
  = mkPage (fst (generateSingleView isRegeneration world a)) [].
Proof.
  rewrite generateSingleView_conclude. unfold begin_generateSingleView.
  apply drive_attempts; [lia | reflexivity].
Qed.

(** A click whose session is alone on the page, driven to its end, is the
    click of [handleGenerationClick]. *)
Lemma one_session_agrees (type : GenerationType) (now_load now_push : Z)
      (world : World) (a : App) :
  drive (2 * MAX_ATTEMPTS) world
    (page_step (page_click type now_load now_push) (mkPage a []))
  = mkPage (handleGenerationClick type now_load now_push world a) [].
Proof.
  assert (Hpage : forall x : App * option Session,
             match x with
             | (b, Some s) => mkPage b ([] ++ [s])
             | (b, None) => mkPage b []
             end = mkPage (fst x) (sessions_of (snd x)))
    by (intros [b [s|]]; reflexivity).
  unfold page_step. cbn [page_app in_flight]. rewrite Hpage.
  unfold begin_click, handleGenerationClick.
  destruct (limitReached (loadRateLimitData now_load a));
    [now apply drive_no_session|].
  destruct type.
  - unfold startGenerationProcess.
    destruct (negb (truthy (uploadedBase64Image _)));
      [now apply drive_no_session|].
    apply begin_generateSingleView_agrees.
  - apply begin_generateSingleView_agrees.
Qed.

(** ** The failure counter, with sessions on the page *)

Lemma finish_failureCount (isRegeneration ok : bool) (data : option string)
      (a : App) :
  failureCount (finish isRegeneration ok data a)
  = if ok || isRegeneration then failureCount a else failureCount a + 1.
Proof. destruct ok, isRegeneration; reflexivity. Qed.

Lemma next_attempt_failureCount (isRegeneration : bool) (k : nat) (a : App) :
  (forall s, snd (next_attempt isRegeneration k a) = Some s ->
             session_isRegeneration s = isRegeneration) /\
  (failureCount (fst (next_attempt isRegeneration k a)) = failureCount a \/
   snd (next_attempt isRegeneration k a) = None /\
   isRegeneration = false /\
   failureCount (fst (next_attempt isRegeneration k a)) = failureCount a + 1).
Proof.
  unfold next_attempt.
  destruct (k <=? MAX_ATTEMPTS)%nat.
  - destruct (isGenerationTerminated a); cbn [fst snd].
    + split; [discriminate | left; reflexivity].
    + split; [|left; reflexivity].
      intros s [= <-]. reflexivity.
  - cbn [fst snd]. split; [discriminate|].
    rewrite finish_failureCount. destruct isRegeneration; cbn [orb].
    + left; reflexivity.
    + right. repeat split.
Qed.

Lemma generation_settles_failureCount (s : Session) (r : GenerateResponse)
      (a : App) :
  (forall s', snd (generation_settles s r a) = Some s' ->
              session_isRegeneration s' = session_isRegeneration s) /\
  (failureCount (fst (generation_settles s r a)) = failureCount a \/
   snd (generation_settles s r a) = None /\
   session_isRegeneration s = false /\
   failureCount (fst (generation_settles s r a)) = failureCount a + 1).
Proof.
  unfold generation_settles.
  destruct (session_awaited s).
  - destruct r as [|data]; [apply next_attempt_failureCount|].
    destruct (truthy data); [|apply next_attempt_failureCount].
    destruct (isCartoonMode a); cbn [fst snd].
    + split; [discriminate | left; reflexivity].
    + split; [|left; reflexivity]. intros s' [= <-]. reflexivity.
  - cbn [fst snd]. split; [|left; reflexivity]. now intros s' [= <-].
Qed.

Lemma verification_settles_failureCount (s : Session) (v : VerifyResponse)
      (a : App) :
  (forall s', snd (verification_settles s v a) = Some s' ->
              session_isRegeneration s' = session_isRegeneration s) /\
  (failureCount (fst (verification_settles s v a)) = failureCount a \/
   snd (verification_settles s v a) = None /\
   session_isRegeneration s = false /\
   failureCount (fst (verification_settles s v a)) = failureCount a + 1).
Proof.
  unfold verification_settles.
  destruct (session_awaited s).
  - cbn [fst snd]. split; [|left; reflexivity]. now intros s' [= <-].
  - destruct v as [|[|]]; try apply next_attempt_failureCount;
      cbn [fst snd]; (split; [discriminate | left; reflexivity]).
Qed.

(** A call settles when at most one session is in flight. *)
Lemma resume_counter_is_flag (i : nat)
      (k : Session -> App -> App * option Session) (p : Page) :
  (forall s a,
      (forall s', snd (k s a) = Some s' ->
                  session_isRegeneration s' = session_isRegeneration s) /\
      (failureCount (fst (k s a)) = failureCount a \/
       snd (k s a) = None /\
       session_isRegeneration s = false /\
       failureCount (fst (k s a)) = failureCount a + 1)) ->
  counter_is_flag p ->
  counter_is_flag
    (mkPage (fst (resume i k (in_flight p) (page_app p)))
            (snd (resume i k (in_flight p) (page_app p)))).
Proof.
  intros Hk (Hlen & Hrange & Hzero).
  destruct p as [a sessions]. cbn [in_flight page_app] in *.
  destruct sessions as [|s [|s2 rest]]; [| |cbn in Hlen; lia].
  - destruct i; cbn [resume fst snd]; repeat split; cbn; try lia; tauto.
  - destruct i as [|i].
    + cbn [resume]. destruct (Hk s a) as [Hsame Hcount].
      destruct (k s a) as [a' [s'|]]; cbn [fst snd] in *.
      * destruct Hcount as [E|(E & _)]; [|discriminate].
        unfold counter_is_flag. cbn [in_flight page_app List.length].
        rewrite E. split; [lia|]. split; [exact Hrange|].
        intros s0 [<-|[]] Hs0. apply (Hzero s); [now left|].
        rewrite <- (Hsame s' eq_refl). exact Hs0.
      * unfold counter_is_flag. cbn [in_flight page_app List.length].
        split; [lia|]. split; [|intros s0 []].
        destruct Hcount as [E|(_ & Hgen & E)]; rewrite E; [exact Hrange|].
        rewrite (Hzero s); [lia | now left | exact Hgen].
    + cbn [resume]. destruct i; cbn [resume fst snd];
        (repeat split; cbn [in_flight page_app List.length];
         [lia | lia | lia | exact Hzero]).
Qed.

Lemma page_step_counter_is_flag (e : PageEvent) (p : Page) :
  (is_click e = true -> no_session p = true) ->
  counter_is_flag p -> counter_is_flag (page_step e p).
Proof.
  intros Hclick Hp.
  destruct e as [type now_load now_push|c|i r|i v]; cbn [page_step].
  - specialize (Hclick eq_refl). unfold no_session in Hclick.
    destruct Hp as (_ & Hrange & _).
    destruct p as [a sessions]. cbn [in_flight page_app] in *.
    destruct sessions; [|discriminate].
    unfold begin_click.
    destruct (limitReached (loadRateLimitData now_load a)).
    { repeat split; cbn; try lia; intros s []. }
    set (admitted := saveTimestamps _).
    assert (Ha : failureCount admitted = failureCount a) by reflexivity.
    destruct type.
    + destruct (negb (truthy (uploadedBase64Image admitted))).
      { repeat split; cbn; try lia; intros s []. }
      unfold begin_generateSingleView.
      set (b := _updateUIState Loading false _).
      assert (Hb : failureCount b = 0) by reflexivity.
      destruct (next_attempt_failureCount false 1 b) as [Hsame Hcount].
      destruct (next_attempt false 1 b) as [b' [s'|]]; cbn [fst snd] in *.
      * destruct Hcount as [E|(E & _)]; [|discriminate].
        unfold counter_is_flag. cbn [in_flight page_app List.length app].
        rewrite E, Hb. split; [lia|]. split; [lia|]. reflexivity.
      * unfold counter_is_flag. cbn [in_flight page_app List.length].
        split; [lia|]. split; [|intros s []].
        destruct Hcount as [E|(_ & _ & E)]; rewrite E, Hb; lia.
    + unfold begin_generateSingleView.
      set (b := _updateUIState Loading true _).
      assert (Hb : failureCount b = failureCount a) by reflexivity.
      destruct (next_attempt_failureCount true 1 b) as [Hsame Hcount].
      destruct (next_attempt true 1 b) as [b' [s'|]]; cbn [fst snd] in *.
      * destruct Hcount as [E|(E & _)]; [|discriminate].
        unfold counter_is_flag. cbn [in_flight page_app List.length app].
        rewrite E, Hb. split; [lia|]. split; [lia|].
        intros s [<-|[]] Hs. rewrite (Hsame s' eq_refl) in Hs. discriminate.
      * unfold counter_is_flag. cbn [in_flight page_app List.length].
        split; [lia|]. split; [|intros s []].
        destruct Hcount as [E|(_ & Hgen & _)]; [|discriminate].
        rewrite E, Hb. exact Hrange.
  - destruct Hp as (Hlen & Hrange & Hzero).
    unfold counter_is_flag. cbn [in_flight page_app].
    rewrite run_callback_failureCount.
    split; [exact Hlen|].
    destruct (resets_counter c); [split; [lia | reflexivity]|].
    split; [exact Hrange | exact Hzero].
  - pose proof (resume_counter_is_flag i (fun s => generation_settles s r) p
                  (fun s a => generation_settles_failureCount s r a) Hp) as H.
    destruct (resume i _ (in_flight p) (page_app p)) as [a' sessions'].
    exact H.
  - pose proof (resume_counter_is_flag i (fun s => verification_settles s v) p
                  (fun s a => verification_settles_failureCount s v a) Hp) as H.
    destruct (resume i _ (in_flight p) (page_app p)) as [a' sessions'].
    exact H.
Qed.

Lemma page_run_counter_is_flag (es : list PageEvent) :
  forall p, one_at_a_time es p = true ->
            counter_is_flag p -> counter_is_flag (page_run es p).
Proof.
  induction es as [|e es IH]; intros p Hes Hp; [exact Hp|].
  cbn [one_at_a_time] in Hes. apply andb_prop in Hes as [He Hes].
  cbn [page_run fold_left]. apply (IH _ Hes).
  apply page_step_counter_is_flag; [|exact Hp].
  intros Hc. destruct e; try discriminate. exact He.
Qed.

(** X5.  As long as every click on generate or regenerate arrives when no
    session is in flight, the failure counter only ever holds 0 or 1: a
    generate session starts by clearing it and adds one when it ends
    rejected, and nothing else adds to it.  This holds after the
    constructor and any such sequence of clicks, listeners and answers of
    the remote models. *)
Theorem failure_counter_is_a_flag (now : Z) (stored : StoredData)
        (es : list PageEvent) :
  one_at_a_time es (page_constructor now stored) = true ->
  failureCount (page_app (page_run es (page_constructor now stored))) = 0 \/
  failureCount (page_app (page_run es (page_constructor now stored))) = 1.
Proof.
  intros Hes.
  assert (H0 : counter_is_flag (page_constructor now stored)).
  { repeat split; cbn; try lia; intros s []. }
  destruct (page_run_counter_is_flag es _ Hes H0) as (_ & Hrange & _).
  lia.
Qed.

Lemma failure_counter_is_a_flag_witness :
  let photo := mkFile "image/png" "data:image/png;base64,QUJD" in
  let es := [page_listener (imageInput_change (Some photo));
             page_click generate 1000 1000;
             call_settles 0 generate_rejects;
             call_settles 0 generate_rejects;
             call_settles 0 generate_rejects;
             call_settles 0 generate_rejects;
             call_settles 0 generate_rejects;
             page_click regenerate 2000 2000;
             call_settles 0 generate_rejects] in
  failureCount (page_app (page_run es (page_constructor 1000 Null))) = 0 \/
  failureCount (page_app (page_run es (page_constructor 1000 Null))) = 1.
Proof.
  intros photo es.
  apply (failure_counter_is_a_flag 1000 Null es). vm_compute. reflexivity.
Defined.

(** Two generate sessions in flight together: the second click clears the
    counter once, and each session adds one when it ends rejected. *)
Example overlapping_sessions_count_twice :
  let photo := mkFile "image/png" "data:image/png;base64,QUJD" in
  let rejected := repeat (call_settles 0 generate_rejects) 5 in
  let es := [page_listener (imageInput_change (Some photo));
             page_click generate 1000 1000;
             page_click generate 2000 2000] ++ rejected ++ rejected in
  one_at_a_time es (page_constructor 1000 Null) = false /\
  failureCount (page_app (page_run es (page_constructor 1000 Null))) = 2.
Proof. vm_compute. split; reflexivity. Qed.

(** ** The stored image, with sessions on the page *)

Lemma run_callback_image (c : Callback) (a : App) :
  successfulImageData (run_callback c a)
  = (if keeps_image c then successfulImageData a else None) /\
  uiState (run_callback c a) = (if keeps_image c then uiState a else Idle).
Proof.
  destruct c as [|checked| |file|now]; cbn; try (split; reflexivity).
  unfold handleFile. destruct file as [f|]; [|split; reflexivity].
  destruct (String.prefix "image/" (type f)); [|split; reflexivity].
  destruct (negb (String.eqb (result f) EmptyString)); [|split; reflexivity].
  destruct (includes comma (result f)); split; reflexivity.
Qed.

Lemma resume_fst (i : nat) (k : Session -> App -> App * option Session)
      (sessions : list Session) (a : App) :
  fst (resume i k sessions a)
  = match nth_error sessions i with
    | Some s => fst (k s a)
    | None => a
    end.
Proof.
  revert i. induction sessions as [|s rest IH]; intros [|i]; cbn [resume nth_error];
    try reflexivity.
  - destruct (k s a) as [a' [s'|]]; reflexivity.
  - specialize (IH i). destruct (resume i k rest a) as [a' rest'].
    exact IH.
Qed.

Lemma next_attempt_image (isRegeneration : bool) (k : nat) (a : App) :
  successfulImageData (fst (next_attempt isRegeneration k a))
  = successfulImageData a.
Proof.
  unfold next_attempt, finish.
  destruct (k <=? MAX_ATTEMPTS)%nat; [destruct (isGenerationTerminated a)|];
    try reflexivity.
  destruct isRegeneration; reflexivity.
Qed.


Lemma generation_settles_image (s : Session) (r : GenerateResponse) (a : App) :
  successfulImageData (fst (generation_settles s r a)) = successfulImageData a \/
  snd (generation_settles s r a) = None /\
  uiState (fst (generation_settles s r a)) = Success.
Proof.
  unfold generation_settles.
  destruct (session_awaited s); [|left; reflexivity].
  destruct r as [|data]; [left; apply next_attempt_image|].
  destruct (truthy data); [|left; apply next_attempt_image].
  destruct (isCartoonMode a); [right; split; reflexivity | left; reflexivity].
Qed.

Lemma verification_settles_image (s : Session) (v : VerifyResponse) (a : App) :
  successfulImageData (fst (verification_settles s v a)) = successfulImageData a \/
  snd (verification_settles s v a) = None /\
  uiState (fst (verification_settles s v a)) = Success.
Proof.
  unfold verification_settles.
  destruct (session_awaited s); [left; reflexivity|].
  destruct v as [|[|]]; try (left; apply next_attempt_image).
  right; split; reflexivity.
Qed.

Lemma resume_image_is_shown (i : nat)
      (k : Session -> App -> App * option Session) (p : Page) :
  (forall s a,
      successfulImageData (fst (k s a)) = successfulImageData a \/
      snd (k s a) = None /\ uiState (fst (k s a)) = Success) ->
  image_is_shown p ->
  image_is_shown
    (mkPage (fst (resume i k (in_flight p) (page_app p)))
            (snd (resume i k (in_flight p) (page_app p)))).
Proof.
  intros Hk (Hlen & Hnone & Hshown).
  destruct p as [a sessions]. cbn [in_flight page_app] in *.
  destruct sessions as [|s [|s2 rest]]; [| |cbn in Hlen; lia].
  - destruct i; cbn [resume fst snd]; repeat split; cbn; try lia; tauto.
  - assert (Ha : successfulImageData a = None) by (apply Hnone; discriminate).
    destruct i as [|i].
    + cbn [resume]. specialize (Hk s a).
      destruct (k s a) as [a' [s'|]]; cbn [fst snd] in *;
        unfold image_is_shown; cbn [in_flight page_app List.length].
      * destruct Hk as [E|(E & _)]; [|discriminate].
        rewrite E, Ha. split; [lia|]. split; [reflexivity | now left].
      * split; [lia|]. split; [intros H; now destruct H|].
        destruct Hk as [E|(_ & E)]; [left; congruence | right; exact E].
    + cbn [resume]. destruct i; cbn [resume fst snd];
        (repeat split; cbn [in_flight page_app List.length];
         [lia | intros _; exact Ha | exact Hshown]).
Qed.

Lemma page_step_image_is_shown (e : PageEvent) (p : Page) :
  is_click e = false -> image_is_shown p -> image_is_shown (page_step e p).
Proof.
  intros He Hp.
  destruct e as [type now_load now_push|c|i r|i v]; cbn [page_step];
    [discriminate| | |].
  - destruct Hp as (Hlen & Hnone & Hshown).
    unfold image_is_shown. cbn [in_flight page_app].
    destruct (run_callback_image c (page_app p)) as [E1 E2].
    rewrite E1, E2.
    destruct (keeps_image c);
      [split; [exact Hlen | split; [exact Hnone | exact Hshown]]|].
    split; [exact Hlen|]. split; [reflexivity | now left].
  - pose proof (resume_image_is_shown i (fun s => generation_settles s r) p
                  (fun s a => generation_settles_image s r a) Hp) as H.
    destruct (resume i _ (in_flight p) (page_app p)) as [a' sessions'].
    exact H.
  - pose proof (resume_image_is_shown i (fun s => verification_settles s v) p
                  (fun s a => verification_settles_image s v a) Hp) as H.
    destruct (resume i _ (in_flight p) (page_app p)) as [a' sessions'].
    exact H.
Qed.

Lemma page_run_image_is_shown (es : list PageEvent) :
  forall p, forallb (fun e => negb (is_click e)) es = true ->
            image_is_shown p -> image_is_shown (page_run es p).
Proof.
  induction es as [|e es IH]; intros p Hes Hp; [exact Hp|].
  cbn [forallb] in Hes. apply andb_prop in Hes as [He Hes].
  cbn [page_run fold_left]. apply (IH _ Hes).
  apply page_step_image_is_shown; [|exact Hp].
  now destruct (is_click e).
Qed.

(** X18.  Nothing to hand out after a generate session that did not
    succeed.  [startGenerationProcess] forgets the earlier image when the
    session starts.  Take an admitted click on generate, made with a photo
    uploaded and no session in flight, and let any listeners and answers of
    the remote models follow, but no further click.  Whenever the status
    on show is not success (while the session runs, after it ended rejected
    or terminated, after the clear button), no image is stored and
    [downloadImage] only logs a warning: it neither shares nor downloads,
    whatever the browser supports. *)
Theorem nothing_to_download_after_failed_generate (now_load now_push : Z)
        (p : Page) (es : list PageEvent) (viewName : string)
        (useShareApi : bool) (b : Browser) :
  no_session p = true ->
  limitReached (loadRateLimitData now_load (page_app p)) = false ->
  truthy (uploadedBase64Image (page_app p)) = true ->
  forallb (fun e => negb (is_click e)) es = true ->
  let a' := page_app (page_run es
                        (page_step (page_click generate now_load now_push) p)) in
  uiState a' <> Success ->
  successfulImageData a' = None /\
  downloadImage viewName useShareApi b a' = [console_warn].
Proof.
  intros Hp Hl Hup Hes a' Hui.
  assert (Hstart : image_is_shown
                     (page_step (page_click generate now_load now_push) p)).
  { destruct p as [a sessions]. unfold no_session in Hp.
    cbn [in_flight page_app] in *. destruct sessions; [|discriminate].
    cbn [page_step page_app in_flight]. unfold begin_click.
    rewrite Hl.
    replace (truthy (uploadedBase64Image _)) with true by (symmetry; exact Hup).
    cbn [negb]. unfold begin_generateSingleView.
    set (b0 := _updateUIState Loading false _).
    pose proof (next_attempt_image false 1 b0) as E.
    destruct (next_attempt false 1 b0) as [b1 [s|]]; cbn [fst] in E;
      unfold image_is_shown; cbn [in_flight page_app List.length app];
      rewrite E; (split; [lia|]); split; try reflexivity; now left. }
  destruct (page_run_image_is_shown es _ Hes Hstart) as (_ & _ & [Himg|Hs]);
    [|now destruct Hui].
  split; [exact Himg|]. unfold downloadImage, a'. now rewrite Himg.
Qed.

Lemma nothing_to_download_after_failed_generate_witness :
  let p := mkPage (mkApp (Some "QUJD"%string) 0 (Some "BBBB"%string) false
                         false [] Null Success []) [] in
  let es := [call_settles 0 (generate_resolves (Some "AAAA"%string));
             verify_settles 0 (verify_resolves false);
             page_listener terminate_click;
             call_settles 0 generate_rejects] in
  downloadImage "id_photo" true (mkBrowser true true true true true true)
                (page_app (page_run es
                             (page_step (page_click generate 1000 1000) p)))
  = [console_warn].
Proof.
  intros p es.
  apply (nothing_to_download_after_failed_generate 1000 1000 p es);
    [reflexivity | reflexivity | reflexivity | reflexivity
    | vm_compute; discriminate].
Defined.
